(** * Employee generator and name statistics (src/main.js)

    A shallow embedding of the two entry points [generateEmployeeData] and
    [getEmployeeChartContent] of src/main.js, with the parts of the
    ECMAScript semantics the program relies on:

    - ordinary objects used as dictionaries (own properties in creation
      order, inherited properties of %Object.prototype%, the enumeration
      order of [Object.entries]);
    - [Array.prototype.sort] with the comparator [(a, b) => b[1] - a[1]];
    - [Date] values as milliseconds since the epoch, with the local-time
      getters the formatter calls;
    - [Math.random] as a stream of draws consumed in program order. *)

From Stdlib Require Import ZArith String Ascii List Lia.
From stdpp Require Import base decidable option list strings gmap pretty sorting.

#[local] Set Warnings "-clear-no-such-hyp".

Local Open Scope string_scope.
Local Open Scope list_scope.
Local Open Scope Z_scope.

(** ** ECMAScript objects used as dictionaries *)

Module JS.

(** Values that can be read from, or stored into, the counting objects.
    A count is a Number holding an integer.  Reading an inherited property
    yields %Object.prototype% itself (key [__proto__]) or one of its built-in
    functions; adding 1 to those concatenates strings.  The source text of a
    built-in function is implementation-defined, so the string obtained from
    it is kept symbolic: [NativeStr f k] is the text of built-in [f] followed
    by [k] characters "1". *)
Inductive value :=
| Num (n : Z)
| Str (s : string)
| NativeStr (f : string) (k : nat)
| ObjectPrototype
| Builtin (f : string).

#[global] Instance value_eq_dec : EqDecision value.
Proof. solve_decision. Defined.

(** An ordinary object whose prototype is %Object.prototype%: its own
    properties, in creation order. *)
Abbreviation obj := (list (string * value)).

(** Names of the function-valued properties of %Object.prototype%
    (ECMA-262 20.1.3 and B.2.2). *)
Definition builtinNames : list string :=
  [ "constructor"; "hasOwnProperty"; "isPrototypeOf"; "propertyIsEnumerable";
    "toLocaleString"; "toString"; "valueOf";
    "__defineGetter__"; "__defineSetter__"; "__lookupGetter__"; "__lookupSetter__" ].

(** All property names of %Object.prototype%. *)
Definition prototypeNames : list string := "__proto__" :: builtinNames.

Fixpoint own (o : obj) (k : string) : option value :=
  match o with
  | [] => None
  | (k', v) :: o' => if decide (k' = k) then Some v else own o' k
  end.

(** [o[k]] as an expression: the own property, else the inherited one, else
    undefined ([None]). *)
Definition get (o : obj) (k : string) : option value :=
  match own o k with
  | Some v => Some v
  | None =>
      if decide (k = "__proto__") then Some ObjectPrototype
      else if decide (k ∈ builtinNames) then Some (Builtin k)
      else None
  end.

(** CreateDataProperty: an existing own property keeps its position, a new
    one is created after all the others. *)
Fixpoint define (o : obj) (k : string) (v : value) : obj :=
  match o with
  | [] => [(k, v)]
  | (k', v') :: o' =>
      if decide (k' = k) then (k, v) :: o' else (k', v') :: define o' k v
  end.

(** [o[k] = v] for a primitive [v] (this program only ever assigns numbers
    and strings): the inherited [__proto__] setter ignores a primitive, every
    other key becomes, or updates, an own data property. *)
Definition put (o : obj) (k : string) (v : value) : obj :=
  if decide (k = "__proto__") then o else define o k v.

(** [x || 0]: undefined, 0 and the empty string are falsy. *)
Definition orZero (x : option value) : value :=
  match x with
  | None => Num 0
  | Some (Num 0) => Num 0
  | Some (Str "") => Num 0
  | Some v => v
  end.

(** [v + 1]: numeric addition on a Number, string concatenation otherwise
    (an object is first converted with its [toString]).  A count never
    exceeds the length of an array, which is below 2^32, so the addition of
    Numbers is exact. *)
Definition addOne (v : value) : value :=
  match v with
  | Num n => Num (n + 1)
  | Str s => Str (s +:+ "1")
  | NativeStr f k => NativeStr f (S k)
  | ObjectPrototype => Str "[object Object]1"
  | Builtin f => NativeStr f 1
  end.

(** ToNumber on the values stored in a counting object; [None] is NaN.  The
    strings this program can store all start with the text of a built-in
    function, which is not a numeric literal. *)
Definition toNumber (v : value) : option Z :=
  match v with
  | Num n => Some n
  | _ => None
  end.

(** *** Array indices and property enumeration order *)

Definition digit (c : ascii) : option N :=
  let n := N_of_ascii c in
  if ((48 <=? n) && (n <=? 57))%N then Some (n - 48)%N else None.

Fixpoint digits (acc : N) (s : string) : option N :=
  match s with
  | EmptyString => Some acc
  | String c s' =>
      match digit c with
      | Some d => digits (acc * 10 + d) s'
      | None => None
      end
  end.

(** An array index is a canonical numeric string (decimal digits, no leading
    zero except for "0" itself) whose value is below 2^32 - 1. *)
Definition arrayIndex (s : string) : option N :=
  match s with
  | EmptyString => None
  | String c s' =>
      if Ascii.eqb c "0" then
        match s' with EmptyString => Some 0%N | _ => None end
      else
        match digits 0 s with
        | Some n => if (n <? 2 ^ 32 - 1)%N then Some n else None
        | None => None
        end
  end.

Definition isIndex (s : string) : bool :=
  match arrayIndex s with Some _ => true | None => false end.

Definition indexOf (p : string * value) : N :=
  match arrayIndex p.1 with Some n => n | None => 0%N end.

(** *** Array.prototype.sort

    The sort is stable (ECMA-262 23.1.3.30).  [after x y] says that the
    comparator called on [(x, y)] returned a positive number, i.e. [x] has to
    come after [y].  For a consistent comparator the result of a stable sort
    is unique (see [sort_unique] below), so inserting the elements one by
    one is the sort. *)
Section Sort.
Context {A : Type} (after : A → A → bool).

Fixpoint insert (x : A) (l : list A) : list A :=
  match l with
  | [] => [x]
  | y :: l' => if after x y then y :: insert x l' else x :: y :: l'
  end.

Definition sort (l : list A) : list A := foldr insert [] l.

End Sort.

(** OrdinaryOwnPropertyKeys: array indices in ascending numeric order, then
    the other string keys in creation order. *)
Definition entries (o : obj) : list (string * value) :=
  sort (λ x y, (indexOf y <? indexOf x)%N) (List.filter (λ p, isIndex p.1) o)
  ++ List.filter (λ p, negb (isIndex p.1)) o.

(** [Object.fromEntries]: one CreateDataProperty per pair, on a fresh
    object. *)
Definition fromEntries (l : list (string * value)) : obj :=
  fold_left (λ o p, define o p.1 p.2) l [].

End JS.

(** ** Data model *)

Record Employee := {
  gender : string;
  birthdate : string;
  name : string;
  surname : string;
  workload : Z
}.

#[global] Instance Employee_eq_dec : EqDecision Employee.
Proof. solve_decision. Defined.

(** The five categories of the statistics. *)
Record Buckets (A : Type) := {
  all : A;
  male : A;
  female : A;
  femalePartTime : A;
  maleFullTime : A
}.
Arguments all {A} _.
Arguments male {A} _.
Arguments female {A} _.
Arguments femalePartTime {A} _.
Arguments maleFullTime {A} _.

Inductive Bucket := BAll | BMale | BFemale | BFemalePartTime | BMaleFullTime.

Definition bucket {A} (X : Bucket) (b : Buckets A) : A :=
  match X with
  | BAll => all b
  | BMale => male b
  | BFemale => female b
  | BFemalePartTime => femalePartTime b
  | BMaleFullTime => maleFullTime b
  end.

Record ChartItem := { label : string; value : JS.value }.

Record DtoOut := {
  names : Buckets JS.obj;
  chartData : Buckets (list ChartItem)
}.

(** ** The aggregator *)

Definition initializeNameCounts : Buckets JS.obj :=
  {| all := []; male := []; female := []; femalePartTime := []; maleFullTime := [] |}.

(** [dict[name] = (dict[name] || 0) + 1] *)
Definition increment (dict : JS.obj) (name : string) : JS.obj :=
  JS.put dict name (JS.addOne (JS.orZero (JS.get dict name))).

(** One iteration of the loop of [countNamesByCategory]; the object
    [nameCounts] is mutated in place, here it is passed on. *)
Definition countEmployee (nameCounts : Buckets JS.obj) (employee : Employee)
    : Buckets JS.obj :=
  let name := name employee in
  let all' := increment (all nameCounts) name in
  if decide (gender employee = "male") then
    {| all := all';
       male := increment (male nameCounts) name;
       female := female nameCounts;
       femalePartTime := femalePartTime nameCounts;
       maleFullTime :=
         if decide (workload employee = 40)
         then increment (maleFullTime nameCounts) name
         else maleFullTime nameCounts |}
  else
    {| all := all';
       male := male nameCounts;
       female := increment (female nameCounts) name;
       femalePartTime :=
         if decide (workload employee ≠ 40)
         then increment (femalePartTime nameCounts) name
         else femalePartTime nameCounts;
       maleFullTime := maleFullTime nameCounts |}.

Definition countNamesByCategory (employees : list Employee)
    (nameCounts : Buckets JS.obj) : Buckets JS.obj :=
  fold_left countEmployee employees nameCounts.

(** The comparator [(a, b) => b[1] - a[1]]; [None] is NaN. *)
Definition byCountDesc (a b : string * JS.value) : option Z :=
  match JS.toNumber b.2, JS.toNumber a.2 with
  | Some nb, Some na => Some (nb - na)
  | _, _ => None
  end.

(** SortCompare treats a NaN result as +0. *)
Definition comesAfter (a b : string * JS.value) : bool :=
  match byCountDesc a b with
  | Some d => bool_decide (0 < d)
  | None => false
  end.

Definition sortedEntries (nameDict : JS.obj) : list (string * JS.value) :=
  JS.sort comesAfter (JS.entries nameDict).

Definition toChartItem (p : string * JS.value) : ChartItem :=
  {| label := p.1; value := p.2 |}.

Definition sortAndConvertToChartData (nameDict : JS.obj) : list ChartItem :=
  toChartItem <$> sortedEntries nameDict.

Definition sortNamesObject (nameDict : JS.obj) : JS.obj :=
  JS.fromEntries (sortedEntries nameDict).

Definition createDtoOut (nameCounts : Buckets JS.obj) : DtoOut :=
  {| names :=
       {| all := sortNamesObject (all nameCounts);
          male := sortNamesObject (male nameCounts);
          female := sortNamesObject (female nameCounts);
          femalePartTime := sortNamesObject (femalePartTime nameCounts);
          maleFullTime := sortNamesObject (maleFullTime nameCounts) |};
     chartData :=
       {| all := sortAndConvertToChartData (all nameCounts);
          male := sortAndConvertToChartData (male nameCounts);
          female := sortAndConvertToChartData (female nameCounts);
          femalePartTime := sortAndConvertToChartData (femalePartTime nameCounts);
          maleFullTime := sortAndConvertToChartData (maleFullTime nameCounts) |} |}.

Definition analyzeEmployeeNames (employees : list Employee) : DtoOut :=
  let nameCounts := initializeNameCounts in
  let nameCounts := countNamesByCategory employees nameCounts in
  createDtoOut nameCounts.

Definition getEmployeeChartContent (employees : list Employee) : DtoOut :=
  let dtoOut := analyzeEmployeeNames employees in
  dtoOut.

(** ** Dates (ECMA-262 21.4.1)

    A time value is a number of milliseconds since the epoch, or NaN
    ([None], an invalid Date). *)

Definition msPerDay : Z := 86400000.
Definition maxTime : Z := 8640000000000000.

Definition Day (t : Z) : Z := t `div` msPerDay.
Definition TimeWithinDay (t : Z) : Z := t `mod` msPerDay.

(** Year, month (1..12) and day of the month of a day number, in the
    proleptic Gregorian calendar. *)
Definition civilFromDays (z : Z) : Z * Z * Z :=
  let z := z + 719468 in
  let era := z `div` 146097 in
  let doe := z - era * 146097 in
  let yoe := (doe - doe `div` 1460 + doe `div` 36524 - doe `div` 146096) `div` 365 in
  let doy := doe - (365 * yoe + yoe `div` 4 - yoe `div` 100) in
  let mp := (5 * doy + 2) `div` 153 in
  let d := doy - (153 * mp + 2) `div` 5 + 1 in
  let m := if decide (mp < 10) then mp + 3 else mp - 9 in
  let y := yoe + era * 400 in
  (if decide (m ≤ 2) then y + 1 else y, m, d).

(** Day number of the given day of the given month (1..12) and year. *)
Definition daysFromCivil (y m d : Z) : Z :=
  let y := if decide (m ≤ 2) then y - 1 else y in
  let era := y `div` 400 in
  let yoe := y - era * 400 in
  let mp := if decide (2 < m) then m - 3 else m + 9 in
  let doy := (153 * mp + 2) `div` 5 + d - 1 in
  let doe := yoe * 365 + yoe `div` 4 - yoe `div` 100 + doy in
  era * 146097 + doe - 719468.

Definition YearFromTime (t : Z) : Z := (civilFromDays (Day t)).1.1.
(** 0 is January. *)
Definition MonthFromTime (t : Z) : Z := (civilFromDays (Day t)).1.2 - 1.
Definition DateFromTime (t : Z) : Z := (civilFromDays (Day t)).2.
Definition HourFromTime (t : Z) : Z := (t `div` 3600000) `mod` 24.
Definition MinFromTime (t : Z) : Z := (t `div` 60000) `mod` 60.
Definition SecFromTime (t : Z) : Z := (t `div` 1000) `mod` 60.
Definition msFromTime (t : Z) : Z := t `mod` 1000.

(** MakeDay for a month taken from [MonthFromTime]: the day number of the
    first of the month, plus [date - 1]. *)
Definition MakeDay (year month date : Z) : Z :=
  daysFromCivil year (month + 1) 1 + date - 1.

Definition MakeDate (day time : Z) : Z := day * msPerDay + time.

Definition TimeClip (t : Z) : option Z :=
  if decide (maxTime < Z.abs t) then None else Some t.

(** What the program reads from its host: the clock, the time zone (the
    offset of local time, in milliseconds, at a UTC time value and at a
    local time value) and the successive results of [Math.random], the
    [i]-th being [random i mod 2^53 / 2^53]. *)
Record Host := {
  clock : Z;
  tzaOfUTC : Z → Z;
  tzaOfLocal : Z → Z;
  random : nat → Z
}.

Definition LocalTime (h : Host) (t : Z) : Z := t + tzaOfUTC h t.
Definition UTC (h : Host) (t : Z) : Z := t - tzaOfLocal h t.

(** A Date object, by its time value. *)
Definition Date := option Z.

Definition getFullYear (h : Host) (date : Date) : option Z :=
  t ← date; Some (YearFromTime (LocalTime h t)).
Definition getMonth (h : Host) (date : Date) : option Z :=
  t ← date; Some (MonthFromTime (LocalTime h t)).
Definition getDate (h : Host) (date : Date) : option Z :=
  t ← date; Some (DateFromTime (LocalTime h t)).
Definition getHours (h : Host) (date : Date) : option Z :=
  t ← date; Some (HourFromTime (LocalTime h t)).
Definition getMinutes (h : Host) (date : Date) : option Z :=
  t ← date; Some (MinFromTime (LocalTime h t)).
Definition getSeconds (h : Host) (date : Date) : option Z :=
  t ← date; Some (SecFromTime (LocalTime h t)).
Definition getMilliseconds (h : Host) (date : Date) : option Z :=
  t ← date; Some (msFromTime (LocalTime h t)).

(** [date.setFullYear(year)] for an integral [year] ([None] is NaN); the
    result is the new time value of [date]. *)
Definition setFullYear (h : Host) (date : Date) (year : option Z) : Date :=
  y ← year;
  let t := match date with Some t => LocalTime h t | None => 0 end in
  let newDate := MakeDate (MakeDay y (MonthFromTime t) (DateFromTime t)) (TimeWithinDay t) in
  TimeClip (UTC h newDate).

(** [String(n)] for an integral Number, or NaN. *)
Definition numberToString (n : option Z) : string :=
  match n with Some n => pretty n | None => "NaN" end.

(** [s.padStart(width, '0')] *)
Definition padStart (width : nat) (s : string) : string :=
  String.concat "" (replicate (width - String.length s) "0") +:+ s.

Definition formatDateToISO (h : Host) (date : Date) : string :=
  let year := getFullYear h date in
  let month := padStart 2 (numberToString ((λ m, m + 1) <$> getMonth h date)) in
  let day := padStart 2 (numberToString (getDate h date)) in
  let hours := padStart 2 (numberToString (getHours h date)) in
  let minutes := padStart 2 (numberToString (getMinutes h date)) in
  let seconds := padStart 2 (numberToString (getSeconds h date)) in
  let milliseconds := padStart 3 (numberToString (getMilliseconds h date)) in
  numberToString year +:+ "-" +:+ month +:+ "-" +:+ day +:+ "T" +:+ hours +:+ ":"
    +:+ minutes +:+ ":" +:+ seconds +:+ "." +:+ milliseconds +:+ "Z".

(** ** The generator *)

Record Age := { min : Z; max : Z }.
Record DtoIn := { count : Z; age : Age }.

Record NameLists := { maleNames : list string; femaleNames : list string }.

Definition getNameLists : NameLists :=
  {| maleNames :=
       [ "Jan"; "Petr"; "Pavel"; "Jiří"; "Josef"; "Tomáš"; "Martin"; "Jaroslav";
         "Miroslav"; "František"; "Václav"; "Karel"; "Milan"; "David"; "Michal";
         "Vratislav"; "Zdeněk"; "Lukáš"; "Marek"; "Jakub"; "Ondřej"; "Stanislav" ];
     femaleNames :=
       [ "Jana"; "Marie"; "Eva"; "Anna"; "Hana"; "Věra"; "Alena"; "Lenka";
         "Petra"; "Jitka"; "Martina"; "Kateřina"; "Lucie"; "Monika"; "Aneta";
         "Jiřina"; "Ivana"; "Veronika"; "Tereza"; "Barbora"; "Zuzana"; "Michaela" ] |}.

Definition getSurnameList : list string :=
  [ "Novák"; "Svoboda"; "Novotný"; "Dvořák"; "Černý"; "Procházka"; "Kučera";
    "Veselý"; "Horák"; "Němec"; "Marek"; "Pospíšil"; "Pokorný"; "Hájek";
    "Král"; "Jelínek"; "Růžička"; "Beneš"; "Fiala"; "Sedláček"; "Doležal";
    "Zeman"; "Kolář"; "Navrátil"; "Čermák"; "Sýkora"; "Ptáček"; "Urban";
    "Krejčí"; "Vaněk" ].

Record DateRange := { minDate : Date; maxDate : Date; range : option Z }.

Definition calculateDateRange (h : Host) (dtoIn : DtoIn) : DateRange :=
  let now : Date := Some (clock h) in
  let minDate := setFullYear h now ((λ y, y - max (age dtoIn)) <$> getFullYear h now) in
  let maxDate := setFullYear h now ((λ y, y - min (age dtoIn)) <$> getFullYear h now) in
  {| minDate := minDate;
     maxDate := maxDate;
     range := a ← maxDate; b ← minDate; Some (a - b) |}.

(** The state a generation run threads through its calls: how many times
    [Math.random] has been called, and the Set [usedBirthdates], which every
    call of [createEmployee] receives and updates in place. *)
Record Run := { calls : nat; usedBirthdates : gset string }.

(** Computations of a run; [None] means that the loop of
    [generateUniqueBirthdate] was still running when its fuel ran out. *)
Definition M (A : Type) : Type := Run → option (A * Run).

Definition ret {A} (a : A) : M A := λ s, Some (a, s).
Definition bind {A B} (m : M A) (k : A → M B) : M B :=
  λ s, match m s with Some (a, s') => k a s' | None => None end.

Notation "x <- m ;; k" := (bind m (λ x, k))
  (at level 100, m at next level, right associativity).

Definition two53 : Z := 2 ^ 53.

(** [Math.random()]: the numerator, over 2^53, of the next draw. *)
Definition mathRandom (h : Host) : M Z :=
  λ s, Some (random h (calls s) `mod` two53,
             {| calls := S (calls s); usedBirthdates := usedBirthdates s |}).

Definition has (birthdateStr : string) : M bool :=
  λ s, Some (bool_decide (birthdateStr ∈ usedBirthdates s), s).

Definition add (birthdateStr : string) : M unit :=
  λ s, Some (tt, {| calls := calls s;
                    usedBirthdates := {[ birthdateStr ]} ∪ usedBirthdates s |}).

(** [Math.floor(r * n)] for the draw [r] of numerator [k]. The product is
    taken exactly, where the source rounds it to the nearest binary64 before
    the floor: for both the result is an index below [n], and the source's
    is one higher when the rounding reaches the next integer. *)
Definition floorScaled (k : Z) (n : Z) : Z := (k * n) `div` two53.

(** [new Date(minDate.getTime() + r * range)] for the draw [r] of numerator
    [k]: the sum, here the fraction [(t0 * 2^53 + k * range) / 2^53], is NaN
    when one of its terms is, an invalid Date when it is out of range, and
    is otherwise truncated to an integral time value. The product and the
    sum are taken exactly, where the source rounds each to the nearest
    binary64: its time value can differ by one millisecond when a rounding
    reaches an integer. *)
Definition randomDate (dateRange : DateRange) (k : Z) : Date :=
  t0 ← minDate dateRange;
  r ← range dateRange;
  let numerator := t0 * two53 + k * r in
  if decide (maxTime * two53 < Z.abs numerator) then None
  else Some (numerator `quot` two53).

(** The do-while loop; [fuel] bounds the number of candidates drawn. *)
Fixpoint generateUniqueBirthdate (fuel : nat) (h : Host) (dateRange : DateRange)
    : M string :=
  match fuel with
  | O => λ _, None
  | S fuel' =>
      k <- mathRandom h ;;
      let birthdate := randomDate dateRange k in
      let birthdateStr := formatDateToISO h birthdate in
      again <- has birthdateStr ;;
      if again : bool then generateUniqueBirthdate fuel' h dateRange
      else (_ <- add birthdateStr ;; ret birthdateStr)
  end.

(** [list[i]] for an index that is always within the list. *)
Definition item (list : list string) (i : Z) : string :=
  nth (Z.to_nat i) list "".

Definition createEmployee (fuel : nat) (h : Host) (names : NameLists)
    (surnames : list string) (dateRange : DateRange) : M Employee :=
  r <- mathRandom h ;;
  let gender := if decide (2 * r < two53) then "male" else "female" in
  let workloads := [10; 20; 30; 40] in
  r <- mathRandom h ;;
  let workload := nth (Z.to_nat (floorScaled r (Z.of_nat (length workloads)))) workloads 0 in
  let nameList := if decide (gender = "male") then maleNames names else femaleNames names in
  r <- mathRandom h ;;
  let name := item nameList (floorScaled r (Z.of_nat (length nameList))) in
  r <- mathRandom h ;;
  let surname := item surnames (floorScaled r (Z.of_nat (length surnames))) in
  birthdate <- generateUniqueBirthdate fuel h dateRange ;;
  ret {| gender := gender; birthdate := birthdate; name := name;
         surname := surname; workload := workload |}.

(** The for loop, with [n] iterations left; [employees.push] appends. *)
Fixpoint generateLoop (fuel : nat) (h : Host) (dateRange : DateRange) (n : nat)
    (employees : list Employee) : M (list Employee) :=
  match n with
  | O => ret employees
  | S n' =>
      employee <- createEmployee fuel h getNameLists getSurnameList dateRange ;;
      generateLoop fuel h dateRange n' (employees ++ [employee])
  end.

Definition generateEmployeeData (fuel : nat) (h : Host) (dtoIn : DtoIn)
    : option (list Employee) :=
  let dateRange := calculateDateRange h dtoIn in
  fst <$> generateLoop fuel h dateRange (Z.to_nat (count dtoIn)) []
            {| calls := 0; usedBirthdates := ∅ |}.

Definition main (fuel : nat) (h : Host) (dtoIn : DtoIn) : option DtoOut :=
  getEmployeeChartContent <$> generateEmployeeData fuel h dtoIn.

(** ** Notions used to state the properties *)

(** A name that is not a property name of %Object.prototype%. *)
Definition ordinaryName (s : string) : Prop := s ∉ JS.prototypeNames.

(** A name that is not an array index. *)
Definition plainKey (s : string) : Prop := JS.isIndex s = false.

#[global] Instance ordinaryName_dec s : Decision (ordinaryName s).
Proof. unfold ordinaryName. apply _. Defined.

#[global] Instance plainKey_dec s : Decision (plainKey s).
Proof. unfold plainKey. apply _. Defined.

(** The employees a category counts. *)
Definition counted (X : Bucket) (e : Employee) : Prop :=
  match X with
  | BAll => True
  | BMale => gender e = "male"
  | BFemale => gender e ≠ "male"
  | BFemalePartTime => gender e ≠ "male" ∧ workload e ≠ 40
  | BMaleFullTime => gender e = "male" ∧ workload e = 40
  end.

#[global] Instance counted_dec X e : Decision (counted X e).
Proof. destruct X; simpl; apply _. Defined.

(** The names added to a category, one per counted employee, in input
    order. *)
Definition added (X : Bucket) (employees : list Employee) : list string :=
  name <$> filter (counted X) employees.

(** The distinct elements of a list, in order of first occurrence. *)
Fixpoint firstSeen (l : list string) : list string :=
  match l with
  | [] => []
  | x :: l' => x :: filter (λ y, y ≠ x) (firstSeen l')
  end.

Definition occurrences (x : string) (l : list string) : Z :=
  Z.of_nat (length (filter (λ y, y = x) l)).

(** The dictionary that counts the elements of [l]: one property per distinct
    element, created at its first occurrence. *)
Definition tally (l : list string) : JS.obj :=
  (λ k, (k, JS.Num (occurrences k l))) <$> firstSeen l.

(** The sum of the counts of a dictionary, as JavaScript would add them up:
    NaN ([None]) as soon as one value is not a number. *)
Definition sumCounts (o : JS.obj) : option Z :=
  foldr (λ p acc, n ← JS.toNumber p.2; s ← acc; Some (n + s)) (Some 0) (JS.entries o).

(** Adjacent elements carry numeric counts that do not increase. *)
Definition descending (vs : list JS.value) : Prop :=
  ∀ (i : nat) (a b : JS.value),
    vs !! i = Some a → vs !! S i = Some b →
    ∃ na nb, a = JS.Num na ∧ b = JS.Num nb ∧ nb ≤ na.

(** The count an entry carries (0 when its value is not a number). *)
Definition countOf (p : string * JS.value) : Z := default 0 (JS.toNumber p.2).

(** "[x] has to come after [y]" for a sort by decreasing measure. *)
Definition afterBy {A} (m : A → Z) (x y : A) : bool := bool_decide (m x < m y).

(** The value of an entry is a number. *)
Definition numeric (p : string * JS.value) : Prop := ∃ n, p.2 = JS.Num n.

(** The sum of the counts of a list of entries. *)
Definition total (l : list (string * JS.value)) : Z :=
  foldr (λ p s, countOf p + s) 0 l.

(** Sorted by decreasing measure. *)
Definition sortedBy {A} (m : A → Z) (l : list A) : Prop :=
  StronglySorted (λ a b, m b ≤ m a) l.

(** The string the [i]-th call of [Math.random] would give as a birthdate. *)
Definition candidate (h : Host) (dateRange : DateRange) (i : nat) : string :=
  formatDateToISO h (randomDate dateRange (random h i `mod` two53)).

(** The random source never gets stuck inside a set of fewer than [n] used
    birthdates: whatever has been used, a later draw gives another one. *)
Definition keepsOffering (n : nat) (h : Host) (dateRange : DateRange) : Prop :=
  ∀ (used : gset string) (p : nat),
    (size used < n)%nat → ∃ q, (p ≤ q)%nat ∧ candidate h dateRange q ∉ used.

(** The state of a run after [n] more calls of [Math.random]. *)
Definition drawn (n : nat) (s : Run) : Run :=
  {| calls := n + calls s; usedBirthdates := usedBirthdates s |}.

(** The state of a run after one more birthdate has been used. *)
Definition used (b : string) (s : Run) : Run :=
  {| calls := calls s; usedBirthdates := {[ b ]} ∪ usedBirthdates s |}.

(** The run that has [n] employees left to create in state [s] finds an
    unused birthdate for each of them: after the four draws for gender,
    workload, name and surname, the [d] next draws give used strings and the
    one after them a string that is not used yet; that string is added, and
    the same holds for the employees that follow. *)
Fixpoint findsUnused (h : Host) (dateRange : DateRange) (n : nat) (s : Run) : Prop :=
  match n with
  | O => True
  | S n' =>
      ∃ d : nat,
        (∀ i : nat, (i < d)%nat →
           candidate h dateRange (i + calls (drawn 4 s)) ∈ usedBirthdates s)
        ∧ (candidate h dateRange (d + calls (drawn 4 s)) ∉ usedBirthdates s)
        ∧ findsUnused h dateRange n'
            (used (candidate h dateRange (d + calls (drawn 4 s)))
                  (drawn (S d) (drawn 4 s)))
  end.

(** The ISO-8601 rendering of a time value in UTC, with millisecond
    precision, for the years 0 to 9999 ([Date.prototype.toISOString]). *)
Definition toISOString (t : Z) : string :=
  padStart 4 (pretty (YearFromTime t)) +:+ "-"
    +:+ padStart 2 (pretty (MonthFromTime t + 1)) +:+ "-"
    +:+ padStart 2 (pretty (DateFromTime t)) +:+ "T"
    +:+ padStart 2 (pretty (HourFromTime t)) +:+ ":"
    +:+ padStart 2 (pretty (MinFromTime t)) +:+ ":"
    +:+ padStart 2 (pretty (SecFromTime t)) +:+ "."
    +:+ padStart 3 (pretty (msFromTime t)) +:+ "Z".

(** ** Concrete inputs *)

Definition employee (g n : string) (w : Z) : Employee :=
  {| gender := g; birthdate := ""; name := n; surname := ""; workload := w |}.

(** Two men called Jan working full time and a woman called Eva working
    part time. *)
Definition janJanEva : list Employee :=
  [ employee "male" "Jan" 40; employee "male" "Jan" 40; employee "female" "Eva" 10 ].

(** Names that are array indices. *)
Definition twoTwoOne : list Employee :=
  [ employee "male" "2" 40; employee "male" "2" 40; employee "female" "1" 10 ].

Definition twoOne : list Employee :=
  [ employee "male" "2" 40; employee "female" "1" 10 ].

(** Three names counted once each, and one counted twice. *)
Definition tied : list Employee :=
  [ employee "female" "Eva" 10; employee "male" "Jan" 40; employee "female" "Anna" 40;
    employee "male" "Jan" 20; employee "male" "Petr" 40 ].

(** A name that is a property of %Object.prototype%. *)
Definition proto : list Employee := [ employee "other" "__proto__" 10 ].

(** A host in UTC whose random source steps through the unit interval. *)
Definition utcHost : Host :=
  {| clock := 1793600000123;
     tzaOfUTC := λ _, 0;
     tzaOfLocal := λ _, 0;
     random := λ i, Z.of_nat i * 2 ^ 49 + 12345 |}.

(** A host one hour east of UTC (Central European Time). *)
Definition cetHost : Host :=
  {| clock := 1793600000123;
     tzaOfUTC := λ _, 3600000;
     tzaOfLocal := λ _, 3600000;
     random := λ i, Z.of_nat i * 2 ^ 49 + 12345 |}.

(** A host whose random source alternates between two values. *)
Definition flipHost : Host :=
  {| clock := 1793600000123;
     tzaOfUTC := λ _, 0;
     tzaOfLocal := λ _, 0;
     random := λ i, if Nat.even i then 2 ^ 50 else 2 ^ 52 + 1 |}.

(** A host whose random source gives one value twelve times and another
    one ever after. *)
Definition stallHost : Host :=
  {| clock := 1793600000123;
     tzaOfUTC := λ _, 0;
     tzaOfLocal := λ _, 0;
     random := λ i, if (i <? 12)%nat then 2 ^ 50 else 2 ^ 52 + 1 |}.

Definition twenties (n : Z) : DtoIn :=
  {| count := n; age := {| min := 20; max := 30 |} |}.

Definition newborns (n : Z) : DtoIn :=
  {| count := n; age := {| min := 0; max := 0 |} |}.

(** What [formatDateToISO] makes of an invalid Date. *)
Definition invalidDateString : string := "NaN-NaN-NaNTNaN:NaN:NaN.NaNZ".

Definition thirties (n : Z) : DtoIn :=
  {| count := n; age := {| min := 30; max := 30 |} |}.

(** An age limit beyond the range of Date. *)
Definition ancients (n : Z) : DtoIn :=
  {| count := n; age := {| min := 0; max := 300000 |} |}.

(** The date range of [flipHost], and a run of it in which the birthdate of
    the first draw is used already. *)
Definition flipRange : DateRange := calculateDateRange flipHost (twenties 2).

Definition flipUsed : Run :=
  {| calls := 0; usedBirthdates := {[ candidate flipHost flipRange 0 ]} |}.

(** The employees of [tied] in another order. *)
Definition tiedShuffled : list Employee :=
  [ employee "male" "Petr" 40; employee "male" "Jan" 20; employee "female" "Anna" 40;
    employee "male" "Jan" 40; employee "female" "Eva" 10 ].

(** A counting dictionary. *)
Definition evaJanAnna : list (string * JS.value) :=
  [ ("Eva", JS.Num 1); ("Jan", JS.Num 2); ("Anna", JS.Num 1) ].

(** ** Checks by enumeration *)

(** [f] holds of the [n] integers from [lo] on. *)
Fixpoint holdsFrom (f : Z → bool) (lo : Z) (n : nat) : bool :=
  match n with
  | O => true
  | S n' => f lo && holdsFrom f (lo + 1) n'
  end.

(** What [civilFromDays] computes from the day of the era, a number of days
    in a cycle of 400 years: the year of the era is in 0..399, the month in
    1..12, the day in 1..31, and [daysFromCivil] finds the day of the era
    back from them. *)
Definition dayOfEraCheck (doe : Z) : bool :=
  let yoe := (doe - doe `div` 1460 + doe `div` 36524 - doe `div` 146096) `div` 365 in
  let doy := doe - (365 * yoe + yoe `div` 4 - yoe `div` 100) in
  let mp := (5 * doy + 2) `div` 153 in
  let d := doy - (153 * mp + 2) `div` 5 + 1 in
  let m := if mp <? 10 then mp + 3 else mp - 9 in
  let mp' := if 2 <? m then m - 3 else m + 9 in
  (0 <=? yoe) && (yoe <=? 399) && (1 <=? m) && (m <=? 12)
  && (1 <=? d) && (d <=? 31)
  && (yoe * 365 + yoe `div` 4 - yoe `div` 100
      + ((153 * mp' + 2) `div` 5 + d - 1) =? doe).

Fixpoint allDigits (s : string) : bool :=
  match s with
  | EmptyString => true
  | String c s' =>
      match JS.digit c with Some _ => allDigits s' | None => false end
  end.

(** A string of exactly [width] decimal digits. *)
Definition fixedDigits (width : nat) (s : string) : bool :=
  bool_decide (String.length s = width) && allDigits s.

(** The shape YYYY-MM-DDTHH:mm:ss.sssZ. *)
Definition isoShape (s : string) : Prop :=
  ∃ year month day hours minutes seconds milliseconds : string,
    s = year +:+ "-" +:+ month +:+ "-" +:+ day +:+ "T" +:+ hours +:+ ":"
          +:+ minutes +:+ ":" +:+ seconds +:+ "." +:+ milliseconds +:+ "Z"
    ∧ fixedDigits 4 year = true
    ∧ fixedDigits 2 month = true
    ∧ fixedDigits 2 day = true
    ∧ fixedDigits 2 hours = true
    ∧ fixedDigits 2 minutes = true
    ∧ fixedDigits 2 seconds = true
    ∧ fixedDigits 3 milliseconds = true.

(** The count a dictionary holds for a name, 0 when it has none. *)
Definition countFor (o : list (string * JS.value)) (k : string) : Z :=
  match JS.own o k with
  | Some (JS.Num n) => n
  | _ => 0
  end.

(** The result for no employee. *)
Definition emptyDto : DtoOut :=
  {| names := {| all := []; male := []; female := [];
                 femalePartTime := []; maleFullTime := [] |};
     chartData := {| all := []; male := []; female := [];
                     femalePartTime := []; maleFullTime := [] |} |}.

(** * Properties *)

(** ** The embedding on known values *)

Example entries_order :
  JS.entries [("b", JS.Num 1); ("10", JS.Num 2); ("9", JS.Num 3);
              ("01", JS.Num 4); ("4294967295", JS.Num 5); ("0", JS.Num 6)]
  = [("0", JS.Num 6); ("9", JS.Num 3); ("10", JS.Num 2);
     ("b", JS.Num 1); ("01", JS.Num 4); ("4294967295", JS.Num 5)].
Proof. vm_compute. reflexivity. Qed.

Example increment_twice :
  increment (increment [] "Jan") "Jan" = [("Jan", JS.Num 2)]
  ∧ increment (increment [] "__proto__") "__proto__" = []
  ∧ increment (increment [] "toString") "toString" = [("toString", JS.NativeStr "toString" 2)].
Proof. split_and!; vm_compute; reflexivity. Qed.

(** The scenario of the specification: two men called Jan and a woman
    called Eva. *)
Example scenario_janJanEva :
  names (getEmployeeChartContent janJanEva)
  = {| all := [("Jan", JS.Num 2); ("Eva", JS.Num 1)];
       male := [("Jan", JS.Num 2)];
       female := [("Eva", JS.Num 1)];
       femalePartTime := [("Eva", JS.Num 1)];
       maleFullTime := [("Jan", JS.Num 2)] |}.
Proof. vm_compute. reflexivity. Qed.

Example scenario_empty :
  getEmployeeChartContent []
  = {| names := {| all := []; male := []; female := [];
                   femalePartTime := []; maleFullTime := [] |};
       chartData := {| all := []; male := []; female := [];
                       femalePartTime := []; maleFullTime := [] |} |}.
Proof. vm_compute. reflexivity. Qed.

Example format_leap_day :
  formatDateToISO utcHost (Some 951782400123) = "2000-02-29T00:00:00.123Z"
  ∧ formatDateToISO utcHost (Some (-1)) = "1969-12-31T23:59:59.999Z"
  ∧ formatDateToISO utcHost None = "NaN-NaN-NaNTNaN:NaN:NaN.NaNZ".
Proof. split_and!; vm_compute; reflexivity. Qed.

(** 29 February of a leap year moved to a common year is 1 March. *)
Example setFullYear_leap_day :
  setFullYear utcHost (Some 951782400123) (Some 2001) = Some 983404800123
  ∧ formatDateToISO utcHost (Some 983404800123) = "2001-03-01T00:00:00.123Z".
Proof. split; vm_compute; reflexivity. Qed.

Example range_of_twenties :
  range (calculateDateRange utcHost (twenties 3)) = Some 315532800000
  ∧ range (calculateDateRange utcHost (newborns 3)) = Some 0.
Proof. split; vm_compute; reflexivity. Qed.

(** ** Dictionaries *)

Section Dictionaries.
Implicit Types (o : JS.obj) (k : string) (v : JS.value).

Lemma own_None o k : JS.own o k = None ↔ k ∉ o.*1.
Proof.
  induction o as [|[k' v'] o IH]; simpl.
  - split; [intros _; apply not_elem_of_nil|done].
  - case_decide; subst.
    + split; [done|]. intros []. left.
    + rewrite IH, not_elem_of_cons. naive_solver.
Qed.

Lemma own_Some_elem o k v : JS.own o k = Some v → (k, v) ∈ o.
Proof.
  induction o as [|[k' v'] o IH]; simpl; [done|].
  case_decide; subst.
  - intros [= ->]. left.
  - intros. right. auto.
Qed.

Lemma own_elem o k v : NoDup o.*1 → (k, v) ∈ o → JS.own o k = Some v.
Proof.
  induction o as [|[k' v'] o IH]; simpl.
  - intros _ Hin. by apply elem_of_nil in Hin.
  - rewrite NoDup_cons. intros [Hk Ho] Hin.
    apply elem_of_cons in Hin as [[= -> ->]|Hin].
    + by rewrite decide_True.
    + rewrite decide_False; [auto|].
      intros ->. apply Hk. apply list_elem_of_fmap. by exists (k, v).
Qed.

Lemma define_fresh o k v : k ∉ o.*1 → JS.define o k v = o ++ [(k, v)].
Proof.
  induction o as [|[k' v'] o IH]; simpl; [done|].
  rewrite not_elem_of_cons. intros [Hne Hk].
  rewrite decide_False by done. by rewrite IH.
Qed.

Lemma define_update o k v :
  NoDup o.*1 → k ∈ o.*1 →
  JS.define o k v = (λ p, if decide (p.1 = k) then (k, v) else p) <$> o.
Proof.
  induction o as [|[k' v'] o IH]; simpl.
  - intros _ Hin. by apply elem_of_nil in Hin.
  - rewrite NoDup_cons. intros [Hk Ho] Hin. case_decide; subst.
    + f_equal. symmetry. rewrite <- (list_fmap_id o) at 2.
      apply list_fmap_ext. intros i [k' w] Hi. simpl.
      rewrite decide_False; [done|]. intros ->. apply Hk.
      apply list_elem_of_fmap. exists (k, w). split; [done|].
      by eapply list_elem_of_lookup_2.
    + f_equal. apply IH; [done|].
      apply elem_of_cons in Hin as [?|?]; [congruence|done].
Qed.

Lemma define_keys o k v :
  (JS.define o k v).*1 = if decide (k ∈ o.*1) then o.*1 else o.*1 ++ [k].
Proof.
  induction o as [|[k' v'] o IH]; csimpl; [done|].
  destruct (decide (k' = k)) as [->|Hne]; csimpl.
  - rewrite decide_True; [done|left].
  - rewrite IH. destruct (decide (k ∈ o.*1)) as [Hin|Hin].
    + rewrite decide_True; [done|by right].
    + rewrite decide_False; [done|].
      rewrite not_elem_of_cons. naive_solver.
Qed.

Lemma define_NoDup o k v : NoDup o.*1 → NoDup (JS.define o k v).*1.
Proof.
  intros Ho. rewrite define_keys. case_decide; [done|].
  apply NoDup_app. split_and!; [done| |apply NoDup_singleton].
  intros x Hx Hx'. apply list_elem_of_singleton in Hx'. by subst.
Qed.

Lemma fromEntries_NoDup (l : list (string * JS.value)) :
  NoDup l.*1 → JS.fromEntries l = l.
Proof.
  unfold JS.fromEntries.
  assert (∀ o, NoDup (o ++ l).*1 →
    fold_left (λ o p, JS.define o p.1 p.2) l o = o ++ l) as Hgen.
  { induction l as [|[k v] l IH]; intros o Hnd; simpl.
    - by rewrite app_nil_r.
    - rewrite define_fresh.
      + rewrite IH; rewrite <- app_assoc; done.
      + rewrite fmap_app, NoDup_app in Hnd. destruct Hnd as (_ & Hd & _).
        intros Hin. apply (Hd _ Hin). simpl. left. }
  intros Hl. by apply (Hgen []).
Qed.

End Dictionaries.

(** ** Stable sorting *)

Section Sorting.
Context {A : Type}.
Implicit Types (l : list A) (x y : A).

Lemma insert_perm after x l : JS.insert after x l ≡ₚ x :: l.
Proof.
  induction l as [|y l IH]; simpl; [done|].
  destruct (after x y); [|done].
  rewrite IH. apply Permutation_swap.
Qed.

Lemma sort_perm after l : JS.sort after l ≡ₚ l.
Proof.
  induction l as [|x l IH]; simpl; [done|].
  by rewrite insert_perm, IH.
Qed.

Lemma insert_ext after after' x l :
  (∀ y, y ∈ l → after x y = after' x y) →
  JS.insert after x l = JS.insert after' x l.
Proof.
  induction l as [|y l IH]; simpl; [done|]. intros Hext.
  rewrite (Hext y) by left. rewrite IH; [done|].
  intros z Hz. apply Hext. by right.
Qed.

Lemma sort_ext after after' l :
  (∀ x y, x ∈ l → y ∈ l → after x y = after' x y) →
  JS.sort after l = JS.sort after' l.
Proof.
  induction l as [|x l IH]; simpl; [done|]. intros Hext.
  rewrite IH by (intros; apply Hext; by right).
  apply insert_ext. intros y Hy. apply Hext; [left|right].
  by rewrite <- (sort_perm after' l).
Qed.

Context (m : A → Z).

Lemma insert_sortedBy x l :
  sortedBy m l → sortedBy m (JS.insert (afterBy m) x l).
Proof.
  unfold sortedBy, afterBy. induction 1 as [|y l Hl IH Hy]; simpl.
  - repeat constructor.
  - case_bool_decide as Hxy.
    + constructor; [done|]. rewrite insert_perm.
      constructor; [lia|done].
    + constructor; [by constructor|].
      constructor; [lia|]. eapply Forall_impl; [exact Hy|].
      simpl. intros; lia.
Qed.

Lemma sort_sortedBy l : sortedBy m (JS.sort (afterBy m) l).
Proof.
  induction l as [|x l IH]; simpl; [constructor|].
  by apply insert_sortedBy.
Qed.

Lemma insert_stable x l c :
  filter (λ y, m y = c) (JS.insert (afterBy m) x l)
  = filter (λ y, m y = c) (x :: l).
Proof.
  unfold afterBy. induction l as [|y l IH]; simpl; [done|].
  case_bool_decide as Hxy; [|done].
  rewrite filter_cons, IH, !filter_cons.
  repeat case_decide; try done; lia.
Qed.

(** The sort is stable: elements of equal measure keep their order. *)
Lemma sort_stable l c :
  filter (λ y, m y = c) (JS.sort (afterBy m) l) = filter (λ y, m y = c) l.
Proof.
  induction l as [|x l IH]; simpl; [done|].
  rewrite insert_stable, !filter_cons, IH. done.
Qed.

(** A list sorted by decreasing measure is determined by the order of the
    elements of each measure. *)
Lemma sortedBy_unique l1 l2 :
  sortedBy m l1 → sortedBy m l2 →
  (∀ c, filter (λ y, m y = c) l1 = filter (λ y, m y = c) l2) →
  l1 = l2.
Proof.
  unfold sortedBy. intros H1. revert l2.
  induction H1 as [|x l1 Hl1 IH Hx]; intros l2 H2 Heq.
  - destruct l2 as [|y l2]; [done|].
    specialize (Heq (m y)). rewrite filter_cons_True in Heq by done. done.
  - destruct H2 as [|y l2 Hl2 Hy].
    { specialize (Heq (m x)). rewrite filter_cons_True in Heq by done. done. }
    assert (m x = m y) as Hxy.
    { assert (y ∈ x :: l1) as Hyin.
      { eapply (list_elem_of_filter (λ z, m z = m y)).
        rewrite Heq, filter_cons_True by done. left. }
      assert (x ∈ y :: l2) as Hxin.
      { eapply (list_elem_of_filter (λ z, m z = m x)).
        rewrite <- Heq, filter_cons_True by done. left. }
      rewrite Forall_forall in Hx, Hy.
      apply elem_of_cons in Hyin as [->|Hyin]; [done|].
      apply elem_of_cons in Hxin as [->|Hxin]; [done|].
      apply Hx in Hyin. apply Hy in Hxin. lia. }
    pose proof (Heq (m x)) as Hhd.
    rewrite filter_cons_True, (filter_cons_True _ y) in Hhd by done.
    injection Hhd as -> Htl. f_equal. apply IH; [done|].
    intros c. specialize (Heq c). rewrite !filter_cons in Heq.
    case_decide; [by injection Heq|done].
Qed.

(** Whatever stable sorting algorithm the engine uses, the result is the one
    computed by [JS.sort]. *)
Lemma sort_unique l l' :
  sortedBy m l' →
  (∀ c, filter (λ y, m y = c) l' = filter (λ y, m y = c) l) →
  l' = JS.sort (afterBy m) l.
Proof.
  intros Hs Hst. apply sortedBy_unique; [done|apply sort_sortedBy|].
  intros c. by rewrite sort_stable.
Qed.

End Sorting.

(** ** Counting *)

Section Counting.
Implicit Types (l : list string) (x k : string).

Lemma firstSeen_elem x l : x ∈ firstSeen l ↔ x ∈ l.
Proof.
  induction l as [|y l IH]; simpl; [done|].
  rewrite !elem_of_cons, list_elem_of_filter, IH.
  destruct (decide (x = y)); naive_solver.
Qed.

Lemma firstSeen_NoDup l : NoDup (firstSeen l).
Proof.
  induction l as [|y l IH]; simpl; [constructor|].
  constructor; [|by apply NoDup_filter].
  rewrite list_elem_of_filter. naive_solver.
Qed.

Lemma firstSeen_snoc l x :
  firstSeen (l ++ [x]) = if decide (x ∈ l) then firstSeen l else firstSeen l ++ [x].
Proof.
  induction l as [|y l IH]; simpl; [done|].
  rewrite IH. destruct (decide (x ∈ l)) as [Hin|Hin].
  - rewrite decide_True; [done|by right].
  - destruct (decide (x = y)) as [->|Hne].
    + rewrite decide_True by left. f_equal.
      rewrite filter_app, filter_cons_False, filter_nil, app_nil_r; [done|].
      by intros [].
    + rewrite decide_False by (rewrite elem_of_cons; naive_solver).
      simpl. f_equal.
      by rewrite filter_app, filter_cons_True, filter_nil.
Qed.

Lemma occurrences_snoc k l x :
  occurrences k (l ++ [x]) = occurrences k l + (if decide (x = k) then 1 else 0).
Proof.
  unfold occurrences. rewrite filter_app, length_app, filter_cons, filter_nil.
  case_decide; simpl; lia.
Qed.

Lemma occurrences_nonneg k l : 0 ≤ occurrences k l.
Proof. unfold occurrences. lia. Qed.

Lemma occurrences_pos k l : k ∈ l → 0 < occurrences k l.
Proof.
  unfold occurrences. intros Hin.
  assert (k ∈ filter (λ y, y = k) l) as Hf by (by apply list_elem_of_filter).
  destruct (filter (λ y, y = k) l); [by apply elem_of_nil in Hf|simpl; lia].
Qed.

Lemma occurrences_absent k l : k ∉ l → occurrences k l = 0.
Proof.
  unfold occurrences. intros Hin.
  destruct (filter (λ y, y = k) l) as [|z f] eqn:Hf; [done|].
  assert (z ∈ filter (λ y, y = k) l) as Hz by (rewrite Hf; left).
  apply list_elem_of_filter in Hz as [-> ?]. done.
Qed.

Lemma tally_keys l : (tally l).*1 = firstSeen l.
Proof.
  unfold tally. rewrite <- list_fmap_compose.
  rewrite <- (list_fmap_id (firstSeen l)) at 2. by apply list_fmap_ext.
Qed.

Lemma tally_NoDup l : NoDup (tally l).*1.
Proof. rewrite tally_keys. apply firstSeen_NoDup. Qed.

Lemma own_tally l k :
  JS.own (tally l) k
  = if decide (k ∈ l) then Some (JS.Num (occurrences k l)) else None.
Proof.
  case_decide as Hin.
  - apply own_elem; [apply tally_NoDup|].
    unfold tally. apply list_elem_of_fmap. exists k.
    split; [done|]. by apply firstSeen_elem.
  - apply own_None. by rewrite tally_keys, firstSeen_elem.
Qed.

Lemma ordinaryName_get o k :
  ordinaryName k → JS.get o k = JS.own o k.
Proof.
  unfold ordinaryName, JS.prototypeNames, JS.get.
  rewrite not_elem_of_cons. intros [Hp Hb].
  destruct (JS.own o k); [done|].
  by rewrite !decide_False.
Qed.

Lemma ordinaryName_put o k v :
  ordinaryName k → JS.put o k v = JS.define o k v.
Proof.
  unfold ordinaryName, JS.prototypeNames, JS.put.
  rewrite not_elem_of_cons. intros [Hp Hb]. by rewrite decide_False.
Qed.

Lemma tally_snoc l x :
  JS.define (tally l) x (JS.Num (occurrences x l + 1)) = tally (l ++ [x]).
Proof.
  destruct (decide (x ∈ l)) as [Hin|Hin].
  - rewrite define_update;
      [|apply tally_NoDup|by rewrite tally_keys, firstSeen_elem].
    unfold tally. rewrite firstSeen_snoc, decide_True by done.
    rewrite <- list_fmap_compose. apply list_fmap_ext.
    intros i k Hk. simpl. rewrite occurrences_snoc.
    case_decide; subst.
    + by rewrite decide_True.
    + rewrite decide_False by done. do 2 f_equal. lia.
  - rewrite define_fresh by (by rewrite tally_keys, firstSeen_elem).
    unfold tally. rewrite firstSeen_snoc, decide_False by done.
    rewrite fmap_app. simpl. f_equal.
    + apply list_fmap_ext. intros i k Hk. simpl.
      rewrite occurrences_snoc, decide_False; [do 2 f_equal; lia|].
      intros ->. apply Hin, firstSeen_elem.
      by eapply list_elem_of_lookup_2.
    + by rewrite occurrences_snoc, decide_True by done.
Qed.

(** Counting one more occurrence of an ordinary name. *)
Lemma increment_tally l x :
  ordinaryName x → increment (tally l) x = tally (l ++ [x]).
Proof.
  intros Hx. unfold increment.
  rewrite ordinaryName_get, ordinaryName_put, own_tally by done.
  rewrite <- tally_snoc. f_equal.
  destruct (decide (x ∈ l)) as [Hin|Hin].
  - pose proof (occurrences_pos x l Hin) as Hpos.
    simpl. destruct (occurrences x l); [lia|done..].
  - by rewrite occurrences_absent.
Qed.

Lemma total_define (o : list (string * JS.value)) k v :
  total (JS.define o k v)
  = total o - default 0 (JS.own o k ≫= JS.toNumber) + countOf (k, v).
Proof.
  induction o as [|[k' v'] o IH]; simpl; [lia|].
  destruct (decide (k' = k)) as [->|Hne]; simpl.
  - change (countOf (k, v')) with (default 0 (JS.toNumber v')). lia.
  - rewrite IH. lia.
Qed.

Lemma tally_total l : total (tally l) = Z.of_nat (length l).
Proof.
  induction l as [|x l IH] using rev_ind; [done|].
  rewrite <- tally_snoc, total_define, own_tally, IH, length_app.
  unfold countOf. simpl. case_decide as Hin; simpl.
  - lia.
  - rewrite occurrences_absent by done. lia.
Qed.

Lemma fold_increment l :
  Forall ordinaryName l → fold_left increment l [] = tally l.
Proof.
  induction l as [|x l IH] using rev_ind; [done|].
  rewrite Forall_app, Forall_singleton. intros [Hl Hx].
  rewrite fold_left_app. simpl. rewrite IH by done.
  by apply increment_tally.
Qed.

(** Each category is counted on its own, from the names of the employees it
    counts. *)
Lemma countNamesByCategory_bucket X employees nameCounts :
  bucket X (countNamesByCategory employees nameCounts)
  = fold_left increment (added X employees) (bucket X nameCounts).
Proof.
  unfold countNamesByCategory, added.
  revert nameCounts. induction employees as [|e employees IH]; intros nc; [done|].
  simpl. rewrite IH. rewrite filter_cons.
  unfold countEmployee.
  destruct X; simpl; repeat case_decide; simpl; try done; naive_solver.
Qed.

Lemma added_ordinary X employees :
  Forall (λ e, ordinaryName (name e)) employees →
  Forall ordinaryName (added X employees).
Proof.
  intros H. unfold added. rewrite Forall_fmap.
  apply Forall_forall. intros e He.
  apply list_elem_of_filter in He as [_ He].
  rewrite Forall_forall in H. by apply H.
Qed.

Lemma counted_bucket X employees :
  Forall (λ e, ordinaryName (name e)) employees →
  bucket X (countNamesByCategory employees initializeNameCounts)
  = tally (added X employees).
Proof.
  intros H. rewrite countNamesByCategory_bucket.
  rewrite <- fold_increment by by apply added_ordinary.
  by destruct X.
Qed.

End Counting.

(** ** The two output views *)

Section Views.
Implicit Types (o : list (string * JS.value)) (k : string).

Lemma filter_fmap_comm {A B} (f : A → B) (P : B → Prop)
    `{!∀ y, Decision (P y)} (l : list A) :
  filter P (f <$> l) = f <$> filter (λ x, P (f x)) l.
Proof.
  induction l as [|x l IH]; [done|].
  csimpl. rewrite !filter_cons, IH. by case_decide.
Qed.

Lemma filter_ext_elem {A} (P Q : A → Prop)
    `{!∀ x, Decision (P x), !∀ x, Decision (Q x)} (l : list A) :
  (∀ x, x ∈ l → P x ↔ Q x) → filter P l = filter Q l.
Proof.
  induction l as [|x l IH]; [done|]. intros Hext.
  rewrite !filter_cons, IH by (intros; apply Hext; by right).
  apply decide_ext, Hext. left.
Qed.

Lemma entries_perm o : JS.entries o ≡ₚ o.
Proof.
  unfold JS.entries. rewrite sort_perm.
  induction o as [|p o IH]; simpl; [done|].
  destruct (JS.isIndex p.1); simpl.
  - by rewrite IH.
  - rewrite <- Permutation_middle. by rewrite IH.
Qed.

Lemma entries_plain o : Forall plainKey o.*1 → JS.entries o = o.
Proof.
  unfold JS.entries, plainKey. intros Ho.
  assert (List.filter (λ p, JS.isIndex p.1) o = []
          ∧ List.filter (λ p, negb (JS.isIndex p.1)) o = o) as [-> ->]; [|done].
  induction o as [|p o IH]; [done|].
  apply Forall_cons in Ho as [Hp Ho]. simpl. rewrite Hp. simpl.
  destruct (IH Ho) as [-> ->]. done.
Qed.

Lemma comesAfter_numeric (a b : string * JS.value) :
  numeric a → numeric b → comesAfter a b = afterBy countOf a b.
Proof.
  destruct a as [ka va], b as [kb vb]. intros [na Ha] [nb Hb].
  simpl in *. subst. unfold comesAfter, byCountDesc, afterBy, countOf. simpl.
  apply bool_decide_ext. lia.
Qed.

Lemma sortedEntries_numeric o :
  Forall numeric o →
  sortedEntries o = JS.sort (afterBy countOf) (JS.entries o).
Proof.
  intros Ho. unfold sortedEntries. apply sort_ext.
  intros x y Hx Hy. rewrite entries_perm in Hx, Hy.
  rewrite Forall_forall in Ho. apply comesAfter_numeric; auto.
Qed.

Lemma sortedEntries_perm o : sortedEntries o ≡ₚ o.
Proof. unfold sortedEntries. by rewrite sort_perm, entries_perm. Qed.

(** The sorted dictionary holds the sorted entries, created in that order. *)
Lemma sortNamesObject_props o :
  NoDup o.*1 → sortNamesObject o = sortedEntries o.
Proof.
  intros Ho. apply fromEntries_NoDup. by rewrite sortedEntries_perm.
Qed.

(** ... and enumerates them in that order when no key is an array index. *)
Lemma sortNamesObject_entries o :
  NoDup o.*1 → Forall plainKey o.*1 →
  JS.entries (sortNamesObject o) = sortedEntries o.
Proof.
  intros Ho Hp. rewrite sortNamesObject_props by done.
  apply entries_plain. by rewrite sortedEntries_perm.
Qed.

Lemma own_perm o o' k : NoDup o.*1 → o ≡ₚ o' → JS.own o k = JS.own o' k.
Proof.
  intros Ho Hp. assert (NoDup o'.*1) as Ho' by (by rewrite <- Hp).
  destruct (JS.own o k) as [v|] eqn:Hk.
  - symmetry. apply own_elem; [done|]. rewrite <- Hp. by apply own_Some_elem.
  - symmetry. apply own_None. rewrite <- Hp. by apply own_None.
Qed.

Lemma tally_numeric l : Forall numeric (tally l).
Proof.
  unfold tally. rewrite Forall_fmap. apply Forall_true. intros k. by eexists.
Qed.

Lemma dto_names X employees :
  bucket X (names (getEmployeeChartContent employees))
  = sortNamesObject (bucket X (countNamesByCategory employees initializeNameCounts)).
Proof. by destruct X. Qed.

Lemma dto_chartData X employees :
  bucket X (chartData (getEmployeeChartContent employees))
  = sortAndConvertToChartData
      (bucket X (countNamesByCategory employees initializeNameCounts)).
Proof. by destruct X. Qed.

(** What a dictionary of the result holds for a name. *)
Lemma names_own X employees k :
  Forall (λ e, ordinaryName (name e)) employees →
  JS.own (bucket X (names (getEmployeeChartContent employees))) k
  = if decide (k ∈ added X employees)
    then Some (JS.Num (occurrences k (added X employees))) else None.
Proof.
  intros H. rewrite dto_names, counted_bucket by done.
  rewrite sortNamesObject_props by apply tally_NoDup.
  rewrite <- own_tally. symmetry. apply own_perm; [apply tally_NoDup|].
  by rewrite sortedEntries_perm.
Qed.

End Views.

(** ** Sums of counts *)

Section Sums.
Implicit Types (o : list (string * JS.value)).

Lemma total_perm o o' : o ≡ₚ o' → total o = total o'.
Proof. induction 1; simpl; lia. Qed.

Lemma numeric_sum o :
  Forall numeric o →
  foldr (λ p acc, n ← JS.toNumber p.2; s ← acc; Some (n + s)) (Some 0) o
  = Some (total o).
Proof.
  induction 1 as [|[k v] o [n Hn] Ho IH]; simpl; [done|].
  rewrite IH. simpl in Hn. subst. done.
Qed.

Lemma sumCounts_numeric o : Forall numeric o → sumCounts o = Some (total o).
Proof.
  intros Ho. unfold sumCounts. rewrite numeric_sum.
  - by rewrite (total_perm _ _ (entries_perm o)).
  - by rewrite entries_perm.
Qed.

(** The counts of a dictionary of the result add up to the number of
    employees its category counts. *)
Lemma names_sum X employees :
  Forall (λ e, ordinaryName (name e)) employees →
  sumCounts (bucket X (names (getEmployeeChartContent employees)))
  = Some (Z.of_nat (length (filter (counted X) employees))).
Proof.
  intros H. rewrite dto_names, counted_bucket by done.
  rewrite sortNamesObject_props by apply tally_NoDup.
  rewrite sumCounts_numeric.
  - rewrite (total_perm _ _ (sortedEntries_perm _)), tally_total.
    unfold added. by rewrite length_fmap.
  - rewrite sortedEntries_perm. apply tally_numeric.
Qed.

Lemma added_mono X Y employees k :
  (∀ e, counted X e → counted Y e) →
  (k ∈ added X employees → k ∈ added Y employees)
  ∧ occurrences k (added X employees) ≤ occurrences k (added Y employees).
Proof.
  intros HXY. unfold added, occurrences.
  induction employees as [|e employees [IH1 IH2]].
  - split; [done|simpl; lia].
  - rewrite !filter_cons.
    destruct (decide (counted X e)) as [HX|HX].
    + rewrite decide_True by auto. csimpl. split.
      * rewrite !elem_of_cons. naive_solver.
      * rewrite !filter_cons. case_decide; simpl; lia.
    + split.
      * intros Hk. case_decide; csimpl; [right|]; auto.
      * case_decide; csimpl; [|done].
        rewrite filter_cons. case_decide; simpl; lia.
Qed.

End Sums.

(** ** Order of the output *)

Section Order.
Implicit Types (o s : list (string * JS.value)) (l : list string) (k : string).

Lemma StronglySorted_lookup {A} (R : relation A) (l : list A) (i j : nat) x y :
  StronglySorted R l → l !! i = Some x → l !! j = Some y → (i < j)%nat → R x y.
Proof.
  intros Hl. revert i j. induction Hl as [|z l Hl IH Hz]; intros i j Hi Hj Hij.
  - done.
  - destruct j as [|j]; [lia|]. destruct i as [|i]; simpl in *.
    + injection Hi as ->. rewrite Forall_forall in Hz. apply Hz.
      by eapply list_elem_of_lookup_2.
    + apply (IH i j); [done..|lia].
Qed.

Lemma sortedBy_descending s :
  Forall numeric s → sortedBy countOf s → descending s.*2.
Proof.
  intros Hn Hs i a b Ha Hb. rewrite list_lookup_fmap in Ha, Hb.
  destruct (s !! i) as [p|] eqn:Hp; [|done].
  destruct (s !! S i) as [q|] eqn:Hq; [|done].
  injection Ha as <-. injection Hb as <-.
  pose proof (StronglySorted_lookup _ _ i (S i) _ _ Hs Hp Hq ltac:(lia)) as Hpq.
  rewrite Forall_forall in Hn.
  destruct (Hn p) as [na Hna]; [by eapply list_elem_of_lookup_2|].
  destruct (Hn q) as [nb Hnb]; [by eapply list_elem_of_lookup_2|].
  exists na, nb. split_and!; [done..|].
  unfold countOf in Hpq. by rewrite Hna, Hnb in Hpq.
Qed.

Lemma sortedEntries_descending o :
  Forall numeric o → descending (sortedEntries o).*2.
Proof.
  intros Ho. apply sortedBy_descending.
  - by rewrite sortedEntries_perm.
  - rewrite sortedEntries_numeric by done. apply sort_sortedBy.
Qed.

Lemma chart_values o :
  value <$> sortAndConvertToChartData o = (sortedEntries o).*2.
Proof.
  unfold sortAndConvertToChartData. rewrite <- list_fmap_compose.
  by apply list_fmap_ext.
Qed.

Lemma chart_labels o :
  label <$> sortAndConvertToChartData o = (sortedEntries o).*1.
Proof.
  unfold sortAndConvertToChartData. rewrite <- list_fmap_compose.
  by apply list_fmap_ext.
Qed.

Lemma tally_plain l : Forall plainKey l → Forall plainKey (tally l).*1.
Proof.
  rewrite tally_keys, !Forall_forall. intros Hl k Hk.
  apply Hl. by apply firstSeen_elem.
Qed.

(** Entries of equal count come out in the order in which their names were
    first counted, provided no name is an array index. *)
Lemma sortedEntries_ties l c :
  Forall plainKey l →
  (filter (λ p, p.2 = JS.Num c) (sortedEntries (tally l))).*1
  = filter (λ k, occurrences k l = c) (firstSeen l).
Proof.
  intros Hl.
  rewrite (filter_ext_elem _ (λ p, countOf p = c)).
  - rewrite sortedEntries_numeric by apply tally_numeric.
    rewrite sort_stable, entries_plain by by apply tally_plain.
    unfold tally. rewrite filter_fmap_comm, <- list_fmap_compose.
    etrans; [|apply list_fmap_id]. by apply list_fmap_ext.
  - intros p Hp. rewrite sortedEntries_perm in Hp.
    pose proof (tally_numeric l) as Hn. rewrite Forall_forall in Hn.
    destruct (Hn p Hp) as [n Hpn]. unfold countOf. rewrite Hpn. simpl.
    split; [by intros [= ->]|by intros ->].
Qed.

Lemma increment_NoDup o k : NoDup o.*1 → NoDup (increment o k).*1.
Proof.
  unfold increment, JS.put. case_decide; [done|]. apply define_NoDup.
Qed.

Lemma increment_keys o k k' :
  k' ∈ (increment o k).*1 → k' = k ∨ k' ∈ o.*1.
Proof.
  unfold increment, JS.put. case_decide; [by right|].
  rewrite define_keys. case_decide; [by right|].
  rewrite elem_of_app, list_elem_of_singleton. naive_solver.
Qed.

Lemma fold_increment_keys l o :
  NoDup o.*1 →
  NoDup (fold_left increment l o).*1
  ∧ ∀ k, k ∈ (fold_left increment l o).*1 → k ∈ l ∨ k ∈ o.*1.
Proof.
  revert o. induction l as [|x l IH]; intros o Ho; simpl.
  - split; [done|by right].
  - destruct (IH (increment o x) (increment_NoDup _ _ Ho)) as [Hnd Hk].
    split; [done|]. intros k Hin.
    destruct (Hk k Hin) as [?|Hin']; [left; by right|].
    apply increment_keys in Hin' as [->|?]; [left; left|by right].
Qed.

(** The keys of a counting dictionary are distinct, and are names of the
    employees, whatever these names are. *)
Lemma counts_keys X employees :
  let o := bucket X (countNamesByCategory employees initializeNameCounts) in
  NoDup o.*1 ∧ ∀ k, k ∈ o.*1 → k ∈ name <$> employees.
Proof.
  simpl. rewrite countNamesByCategory_bucket.
  assert (bucket X initializeNameCounts = []) as -> by by destruct X.
  destruct (fold_increment_keys (added X employees) []) as [Hnd Hk];
    [constructor|].
  split; [done|]. intros k Hin. destruct (Hk k Hin) as [Hadd|Hnil].
  - unfold added in Hadd. apply list_elem_of_fmap in Hadd as (e & -> & He).
    apply list_elem_of_filter in He as [_ He].
    apply list_elem_of_fmap. by exists e.
  - by apply elem_of_nil in Hnil.
Qed.

End Order.

(** ** The resampling loop *)

Section Resampling.
Context (h : Host) (dateRange : DateRange).
Implicit Types (s : Run) (fuel : nat).

Lemma generateUniqueBirthdate_step fuel s :
  generateUniqueBirthdate (S fuel) h dateRange s
  = if decide (candidate h dateRange (calls s) ∈ usedBirthdates s)
    then generateUniqueBirthdate fuel h dateRange (drawn 1 s)
    else Some (candidate h dateRange (calls s),
               used (candidate h dateRange (calls s)) (drawn 1 s)).
Proof.
  cbn [generateUniqueBirthdate]. unfold bind, mathRandom, has, add, ret.
  cbn [calls usedBirthdates]. fold (candidate h dateRange (calls s)).
  unfold bool_decide. by destruct (decide_rel _ _ _).
Qed.

(** What the loop returns is a candidate that was not used before; it is
    recorded as used. *)
Lemma generateUniqueBirthdate_fresh fuel s b s' :
  generateUniqueBirthdate fuel h dateRange s = Some (b, s') →
  (b ∉ usedBirthdates s)
  ∧ usedBirthdates s' = {[ b ]} ∪ usedBirthdates s
  ∧ (calls s < calls s')%nat
  ∧ ∃ i, b = candidate h dateRange i.
Proof.
  revert s. induction fuel as [|fuel IH]; intros s; [done|].
  rewrite generateUniqueBirthdate_step. case_decide as Hin.
  - intros Hrec. destruct (IH _ Hrec) as (? & ? & ? & ?).
    split_and!; [done..| |done]. simpl in *. lia.
  - intros [= <- <-]. split_and!; [done|done|simpl; lia|by eexists].
Qed.

Lemma generateUniqueBirthdate_more fuel fuel' s r :
  generateUniqueBirthdate fuel h dateRange s = Some r → (fuel ≤ fuel')%nat →
  generateUniqueBirthdate fuel' h dateRange s = Some r.
Proof.
  revert fuel' s. induction fuel as [|fuel IH]; intros fuel' s; [done|].
  intros Hr Hle. destruct fuel' as [|fuel']; [lia|].
  rewrite generateUniqueBirthdate_step in *. case_decide; [|done].
  apply IH; [done|lia].
Qed.

(** The loop ends as soon as a draw gives an unused birthdate. *)
Lemma generateUniqueBirthdate_ends d s :
  candidate h dateRange (d + calls s) ∉ usedBirthdates s →
  is_Some (generateUniqueBirthdate (S d) h dateRange s).
Proof.
  revert s. induction d as [|d IH]; intros s Hd;
    rewrite generateUniqueBirthdate_step; case_decide as Hin; try done.
  apply IH. simpl.
  replace (d + S (calls s))%nat with (S d + calls s)%nat by lia. done.
Qed.

(** The loop never ends when every draw gives a used birthdate. *)
Lemma generateUniqueBirthdate_stuck fuel s :
  (∀ i, candidate h dateRange i ∈ usedBirthdates s) →
  generateUniqueBirthdate fuel h dateRange s = None.
Proof.
  revert s. induction fuel as [|fuel IH]; intros s Hs; [done|].
  rewrite generateUniqueBirthdate_step, decide_True by done.
  apply IH. done.
Qed.

(** An employee is created exactly when the loop finds its birthdate, after
    the four draws for gender, workload, name and surname. *)
Lemma createEmployee_birthdate fuel s :
  match createEmployee fuel h getNameLists getSurnameList dateRange s with
  | Some (e, s') =>
      generateUniqueBirthdate fuel h dateRange (drawn 4 s) = Some (birthdate e, s')
  | None => generateUniqueBirthdate fuel h dateRange (drawn 4 s) = None
  end.
Proof.
  unfold createEmployee, bind, mathRandom, ret. cbn [calls usedBirthdates].
  change {| calls := S (S (S (S (calls s)))); usedBirthdates := usedBirthdates s |}
    with (drawn 4 s).
  by destruct (generateUniqueBirthdate fuel h dateRange (drawn 4 s)) as [[b s']|].
Qed.

Lemma generateLoop_step fuel n employees s :
  generateLoop fuel h dateRange (S n) employees s
  = match createEmployee fuel h getNameLists getSurnameList dateRange s with
    | Some (e, s') => generateLoop fuel h dateRange n (employees ++ [e]) s'
    | None => None
    end.
Proof. done. Qed.

(** The loop pushes one employee per iteration, each with a birthdate that
    no earlier employee of the run has. *)
Lemma generateLoop_inv fuel n employees s l s' :
  generateLoop fuel h dateRange n employees s = Some (l, s') →
  length l = (length employees + n)%nat
  ∧ (NoDup (birthdate <$> employees) →
     (∀ b, b ∈ birthdate <$> employees → b ∈ usedBirthdates s) →
     NoDup (birthdate <$> l)).
Proof.
  revert employees s. induction n as [|n IH]; intros employees s.
  - intros [= <- <-]. split; [lia|done].
  - rewrite generateLoop_step.
    pose proof (createEmployee_birthdate fuel s) as He.
    destruct (createEmployee _ _ _ _ _ _) as [[e s1]|]; [|done].
    apply generateUniqueBirthdate_fresh in He as (Hfresh & Hused & _ & _).
    intros Hl. destruct (IH _ _ Hl) as [Hlen Hnd].
    split; [rewrite Hlen, length_app; simpl; lia|].
    intros Hacc Hsub. apply Hnd.
    + rewrite fmap_app. apply NoDup_app. split_and!; [done| |apply NoDup_singleton].
      intros b Hb ->%list_elem_of_singleton. by apply Hfresh, Hsub.
    + intros b. rewrite fmap_app, elem_of_app, Hused. simpl.
      rewrite list_elem_of_singleton. set_solver.
Qed.

(** The loop returns when the random source keeps offering unused
    birthdates. *)
Lemma generateLoop_ends N n s :
  keepsOffering N h dateRange →
  (size (usedBirthdates s) + n ≤ N)%nat →
  ∃ fuel, ∀ fuel' employees, (fuel ≤ fuel')%nat →
    is_Some (generateLoop fuel' h dateRange n employees s).
Proof.
  intros Hoffer. revert s. induction n as [|n IH]; intros s Hsize.
  - exists O. intros. by eexists.
  - destruct (Hoffer (usedBirthdates s) (4 + calls s)%nat) as (q & Hq & Hfree);
      [lia|].
    destruct (generateUniqueBirthdate_ends (q - (4 + calls s)) (drawn 4 s))
      as [[b s1] Hb].
    { unfold drawn. cbn [calls usedBirthdates].
      replace (q - (4 + calls s) + (4 + calls s))%nat with q by lia. done. }
    pose proof (generateUniqueBirthdate_fresh _ _ _ _ Hb) as (Hfresh & Hused & _ & _).
    destruct (IH s1) as [fuel2 Hfuel2].
    { rewrite Hused, size_union, size_singleton by set_solver. simpl in *. lia. }
    exists (S (q - (4 + calls s)) `max` fuel2)%nat. intros fuel' employees Hle.
    rewrite generateLoop_step.
    pose proof (createEmployee_birthdate fuel' s) as He.
    rewrite (generateUniqueBirthdate_more _ fuel' _ _ Hb) in He by lia.
    destruct (createEmployee fuel' _ _ _ _ _) as [[e s2]|]; [|done].
    injection He as _ <-. apply Hfuel2. lia.
Qed.

(** The loop does not return when all draws give the same birthdate and two
    employees or more are still to be created. *)
Lemma generateLoop_stuck fuel n employees s b :
  (∀ i, candidate h dateRange i = b) →
  generateLoop fuel h dateRange (S (S n)) employees s = None.
Proof.
  intros Hconst. rewrite generateLoop_step.
  pose proof (createEmployee_birthdate fuel s) as He.
  destruct (createEmployee _ _ _ _ _ _) as [[e s1]|]; [|done].
  rewrite generateLoop_step.
  pose proof (createEmployee_birthdate fuel s1) as He1.
  destruct (createEmployee _ _ _ _ _ _) as [[e1 s2]|]; [|done].
  exfalso. rewrite generateUniqueBirthdate_stuck in He1; [done|].
  intros i. simpl.
  apply generateUniqueBirthdate_fresh in He as (_ & -> & _ & [j ->]).
  rewrite !Hconst. set_solver.
Qed.

End Resampling.

(** ** Runs of the generator *)

Section Runs.
Context (h : Host).
Implicit Types (dtoIn : DtoIn) (fuel : nat).

(** With [age.min = age.max] the two ends of the date range are the same
    Date, so every draw gives the same birthdate. *)
Lemma candidate_zero_span dtoIn i :
  min (age dtoIn) = max (age dtoIn) →
  candidate h (calculateDateRange h dtoIn) i
  = candidate h (calculateDateRange h dtoIn) 0.
Proof.
  intros Hage. unfold candidate.
  assert (∀ k, randomDate (calculateDateRange h dtoIn) k
               = randomDate (calculateDateRange h dtoIn) 0) as Hk.
  { intros k. unfold calculateDateRange, randomDate. cbn [minDate range].
    rewrite Hage. destruct (setFullYear h _ _) as [t|]; [|reflexivity].
    cbn [mbind option_bind]. by rewrite Z.sub_diag, !Z.mul_0_r. }
  rewrite (Hk (random h i `mod` two53)), (Hk (random h 0 `mod` two53)).
  reflexivity.
Qed.

Lemma generateEmployeeData_zero_span fuel dtoIn :
  min (age dtoIn) = max (age dtoIn) → 2 ≤ count dtoIn →
  generateEmployeeData fuel h dtoIn = None.
Proof.
  intros Hage Hcount. unfold generateEmployeeData.
  destruct (Z.to_nat (count dtoIn)) as [|[|n]] eqn:Hn; [lia..|].
  erewrite generateLoop_stuck; [done|].
  intros i. by apply candidate_zero_span.
Qed.

Lemma generateEmployeeData_single fuel dtoIn :
  count dtoIn = 1 →
  ∃ e, generateEmployeeData (S fuel) h dtoIn = Some [e].
Proof.
  intros Hcount. unfold generateEmployeeData. rewrite Hcount.
  change (Z.to_nat 1) with 1%nat. rewrite generateLoop_step.
  set (dateRange := calculateDateRange h dtoIn).
  set (s := {| calls := 0; usedBirthdates := ∅ |}).
  destruct (generateUniqueBirthdate_ends h dateRange 0 (drawn 4 s))
    as [[b s1] Hb]; [apply not_elem_of_empty|].
  apply (generateUniqueBirthdate_more _ _ _ (S fuel)) in Hb; [|lia].
  pose proof (createEmployee_birthdate h dateRange (S fuel) s) as He.
  rewrite Hb in He.
  destruct (createEmployee _ _ _ _ _ _) as [[e s2]|]; [|discriminate He].
  exists e. reflexivity.
Qed.

Lemma generateEmployeeData_length fuel dtoIn employees :
  generateEmployeeData fuel h dtoIn = Some employees →
  length employees = Z.to_nat (count dtoIn).
Proof.
  unfold generateEmployeeData.
  destruct (generateLoop _ _ _ _ _ _) as [[l s]|] eqn:Hl; [|done].
  intros [= <-]. by apply generateLoop_inv in Hl as [-> _].
Qed.

Lemma generateEmployeeData_ends dtoIn :
  keepsOffering (Z.to_nat (count dtoIn)) h (calculateDateRange h dtoIn) →
  ∃ fuel, ∀ fuel', (fuel ≤ fuel')%nat →
    is_Some (generateEmployeeData fuel' h dtoIn).
Proof.
  intros Hoffer. unfold generateEmployeeData.
  destruct (generateLoop_ends h _ _ (Z.to_nat (count dtoIn))
              {| calls := 0; usedBirthdates := ∅ |} Hoffer) as [fuel Hfuel].
  { cbn [usedBirthdates]. rewrite size_empty. lia. }
  exists fuel. intros fuel' Hle.
  destruct (Hfuel fuel' [] Hle) as [[l s] ->]. by eexists.
Qed.

End Runs.

Lemma candidate_ext (h : Host) (dateRange : DateRange) (i j : nat) :
  random h i = random h j → candidate h dateRange i = candidate h dateRange j.
Proof. unfold candidate. intros ->. reflexivity. Qed.

(** The random source of [flipHost] keeps offering a second birthdate. *)
Lemma flipHost_keepsOffering :
  keepsOffering 2 flipHost (calculateDateRange flipHost (twenties 2)).
Proof.
  assert (candidate flipHost (calculateDateRange flipHost (twenties 2)) 0
          ≠ candidate flipHost (calculateDateRange flipHost (twenties 2)) 1) as Hne.
  { vm_compute. discriminate. }
  unfold keepsOffering.
  generalize dependent (calculateDateRange flipHost (twenties 2)).
  intros dateRange Hne.
  assert (∀ p, candidate flipHost dateRange (2 * p) = candidate flipHost dateRange 0) as Heven.
  { intros p. apply candidate_ext. cbn [random flipHost].
    rewrite Nat.even_mul. reflexivity. }
  assert (∀ p, candidate flipHost dateRange (S (2 * p)) = candidate flipHost dateRange 1) as Hodd.
  { intros p. apply candidate_ext. cbn [random flipHost].
    rewrite Nat.even_succ, Nat.odd_mul. reflexivity. }
  generalize dependent (candidate flipHost dateRange).
  intros c Hne Heven Hodd usedSet p Hsize.
  destruct (decide (c 0%nat ∈ usedSet)) as [H0|H0].
  - exists (S (2 * p)). split; [lia|]. rewrite Hodd. intros H1.
    assert ({[ c 0%nat; c 1%nat ]} ⊆ usedSet) as Hsub by set_solver.
    apply subseteq_size in Hsub.
    rewrite size_union, !size_singleton in Hsub by set_solver. lia.
  - exists (2 * p)%nat. split; [lia|]. by rewrite Heven.
Qed.

Lemma Run_eq (s s' : Run) :
  calls s = calls s' → usedBirthdates s = usedBirthdates s' → s = s'.
Proof. destruct s, s'. cbn [calls usedBirthdates]. intros -> ->. reflexivity. Qed.

Section FirstFresh.
Context (h : Host) (dateRange : DateRange).

Lemma generateUniqueBirthdate_first fuel s b s' :
  generateUniqueBirthdate fuel h dateRange s = Some (b, s') →
  ∃ d : nat,
    calls s' = S (d + calls s)
    ∧ b = candidate h dateRange (d + calls s)
    ∧ (∀ i : nat, (i < d)%nat → candidate h dateRange (i + calls s) ∈ usedBirthdates s)
    ∧ (b ∉ usedBirthdates s)
    ∧ usedBirthdates s' = {[ b ]} ∪ usedBirthdates s.
Proof.
  revert s. induction fuel as [|fuel IH]; intros s; [done|].
  rewrite generateUniqueBirthdate_step. case_decide as Hin.
  - intros Hrec. destruct (IH _ Hrec) as (d & Hcalls & Hb & Hbefore & Hfresh & Hused).
    cbn [drawn calls usedBirthdates] in *. exists (S d).
    split_and!; [lia| | |done|done].
    + rewrite Hb. apply candidate_ext. f_equal. lia.
    + intros i Hi. destruct i as [|i]; [done|].
      replace (S i + calls s)%nat with (i + (1 + calls s))%nat by lia.
      apply Hbefore. lia.
  - intros [= <- <-]. exists 0%nat. cbn [drawn used calls usedBirthdates].
    split_and!; [done|done| |done|done]. intros i Hi. lia.
Qed.

(** The state the loop leaves behind: the draws it made are counted and the
    birthdate it returns is added. *)
Lemma generateUniqueBirthdate_state fuel s b s' :
  generateUniqueBirthdate fuel h dateRange s = Some (b, s') →
  ∃ d : nat,
    (∀ i : nat, (i < d)%nat → candidate h dateRange (i + calls s) ∈ usedBirthdates s)
    ∧ (candidate h dateRange (d + calls s) ∉ usedBirthdates s)
    ∧ b = candidate h dateRange (d + calls s)
    ∧ s' = used (candidate h dateRange (d + calls s)) (drawn (S d) s).
Proof.
  intros Hb.
  destruct (generateUniqueBirthdate_first _ _ _ _ Hb)
    as (d & Hcalls & Hbd & Hbefore & Hfresh & Hused).
  exists d. rewrite <- Hbd. split_and!; [exact Hbefore|exact Hfresh|reflexivity|].
  apply Run_eq.
  - rewrite Hcalls. reflexivity.
  - rewrite Hused. reflexivity.
Qed.

(** The number of used draws before the first unused one is determined by
    the state. *)
Lemma first_unused_unique (c : nat → string) (X : gset string) (d d' : nat) :
  (∀ i : nat, (i < d)%nat → c i ∈ X) → c d ∉ X →
  (∀ i : nat, (i < d')%nat → c i ∈ X) → c d' ∉ X →
  d' = d.
Proof.
  intros Hbefore Hfree Hbefore' Hfree'.
  destruct (Nat.lt_trichotomy d' d) as [Hlt|[Heq|Hlt]]; [|exact Heq|].
  - destruct Hfree'. apply Hbefore. exact Hlt.
  - destruct Hfree. apply Hbefore'. exact Hlt.
Qed.

(** The for loop returns, given enough fuel, when every employee finds an
    unused birthdate. *)
Lemma findsUnused_returns n s :
  findsUnused h dateRange n s →
  ∃ fuel, ∀ fuel' employees, (fuel ≤ fuel')%nat →
    is_Some (generateLoop fuel' h dateRange n employees s).
Proof.
  revert s. induction n as [|n IH]; intros s.
  - intros _. exists O. intros. by eexists.
  - cbn [findsUnused]. intros (d & Hbefore & Hfree & Hrest).
    destruct (generateUniqueBirthdate_ends h dateRange d (drawn 4 s))
      as [[b s1] Hb]; [exact Hfree|].
    destruct (generateUniqueBirthdate_state _ _ _ _ Hb)
      as (d' & Hbefore' & Hfree' & _ & Hs1).
    assert (d' = d) as Hd.
    { apply (first_unused_unique
               (λ i, candidate h dateRange (i + calls (drawn 4 s)))
               (usedBirthdates s)); assumption. }
    rewrite Hd in Hs1. rewrite Hs1 in Hb. clear Hs1 Hd Hbefore' Hfree' d' s1.
    destruct (IH _ Hrest) as [fuel2 Hfuel2].
    exists (S d `max` fuel2)%nat. intros fuel' employees Hle.
    rewrite generateLoop_step.
    pose proof (createEmployee_birthdate h dateRange fuel' s) as He.
    rewrite (generateUniqueBirthdate_more _ _ _ fuel' _ _ Hb) in He by lia.
    destruct (createEmployee fuel' _ _ _ _ _) as [[e s2]|]; [|done].
    injection He as _ <-. apply Hfuel2. lia.
Qed.

(** Conversely, in a run that returns every employee found an unused
    birthdate. *)
Lemma returns_findsUnused fuel n employees s r :
  generateLoop fuel h dateRange n employees s = Some r →
  findsUnused h dateRange n s.
Proof.
  revert employees s. induction n as [|n IH]; intros employees s; [done|].
  rewrite generateLoop_step.
  pose proof (createEmployee_birthdate h dateRange fuel s) as He.
  destruct (createEmployee _ _ _ _ _ _) as [[e s1]|]; [|done].
  destruct (generateUniqueBirthdate_state _ _ _ _ He)
    as (d & Hbefore & Hfree & _ & Hs1).
  intros Hrest. cbn [findsUnused]. exists d.
  split_and!; [exact Hbefore|exact Hfree|].
  rewrite <- Hs1. exact (IH _ _ Hrest).
Qed.

End FirstFresh.

(** generateEmployeeData returns, given enough fuel, exactly when every
    employee of the run finds an unused birthdate. *)
Lemma generateEmployeeData_returns (h : Host) (dtoIn : DtoIn) :
  findsUnused h (calculateDateRange h dtoIn) (Z.to_nat (count dtoIn))
    {| calls := 0; usedBirthdates := ∅ |}
  ↔ ∃ fuel, ∀ fuel', (fuel ≤ fuel')%nat →
      is_Some (generateEmployeeData fuel' h dtoIn).
Proof.
  unfold generateEmployeeData. split.
  - intros Hfinds.
    destruct (findsUnused_returns h _ _ _ Hfinds) as [fuel Hfuel].
    exists fuel. intros fuel' Hle.
    destruct (Hfuel fuel' [] Hle) as [[l s] ->]. by eexists.
  - intros [fuel Hfuel]. destruct (Hfuel fuel (le_n _)) as [l Hl].
    destruct (generateLoop _ _ _ _ _ _) as [r|] eqn:Hr; [|done].
    exact (returns_findsUnused h _ _ _ _ _ _ Hr).
Qed.

(** The random source of [stallHost] does not keep offering a second
    birthdate to every run, since it gets stuck after twelve draws. *)
Lemma stallHost_gets_stuck :
  ¬ keepsOffering 2 stallHost (calculateDateRange stallHost (twenties 2)).
Proof.
  unfold keepsOffering.
  generalize dependent (calculateDateRange stallHost (twenties 2)).
  intros dateRange Hoffer.
  destruct (Hoffer {[ candidate stallHost dateRange 12 ]} 12%nat)
    as (q & Hq & Hfree).
  { rewrite size_singleton. lia. }
  apply Hfree. apply elem_of_singleton. apply candidate_ext.
  cbn [random stallHost].
  destruct (Nat.ltb_spec q 12) as [Hlt|_]; [lia|reflexivity].
Qed.

(** Two employees of [stallHost] find their birthdates all the same: the
    first at once, the second after three used draws. *)
Lemma stallHost_findsUnused :
  findsUnused stallHost (calculateDateRange stallHost (twenties 2)) 2
    {| calls := 0; usedBirthdates := ∅ |}.
Proof.
  cbn [findsUnused used drawn calls usedBirthdates]. exists 0%nat. split_and!.
  - intros i Hi. lia.
  - apply not_elem_of_empty.
  - exists 3%nat. split_and!; [| |exact I].
    + intros i Hi. apply elem_of_union_l, elem_of_singleton.
      destruct i as [|[|[|i]]]; [vm_compute; reflexivity..|lia].
    + intros Hin. apply elem_of_union in Hin as [Hin|Hin].
      * apply elem_of_singleton in Hin. revert Hin. vm_compute. discriminate.
      * by apply not_elem_of_empty in Hin.
Qed.

Lemma gender_split (employees : list Employee) :
  (length (filter (counted BMale) employees)
   + length (filter (counted BFemale) employees))%nat = length employees.
Proof.
  rewrite <- length_app.
  rewrite (list_filter_iff (counted BFemale) (λ e, ¬ counted BMale e)) by done.
  by rewrite filter_app_complement.
Qed.

Lemma counted_all (employees : list Employee) :
  filter (counted BAll) employees = employees.
Proof.
  induction employees as [|e employees IH]; [done|].
  rewrite filter_cons_True by done. by rewrite IH.
Qed.

Lemma added_elem X (employees : list Employee) e :
  e ∈ employees → counted X e → name e ∈ added X employees.
Proof.
  intros He HX. apply list_elem_of_fmap. exists e.
  split; [done|]. by apply list_elem_of_filter.
Qed.

(** * The claims *)

(** C1 (amended): for every config with a non-negative integer count, every
    sequence generateEmployeeData returns has exactly [count] employees, and
    for [count = 0] it returns the empty sequence at once; it returns, given
    enough steps, exactly when each employee of the run finds, after its four
    attribute draws, a draw whose birthdate is not used yet, which is the
    case whenever the random source never gets stuck inside fewer than
    [count] birthdates. *)
Theorem generateEmployeeData_count (h : Host) (dtoIn : DtoIn) :
  0 ≤ count dtoIn →
  (∀ fuel employees,
     generateEmployeeData fuel h dtoIn = Some employees →
     Z.of_nat (length employees) = count dtoIn)
  ∧ (count dtoIn = 0 → ∀ fuel, generateEmployeeData fuel h dtoIn = Some [])
  ∧ (findsUnused h (calculateDateRange h dtoIn) (Z.to_nat (count dtoIn))
       {| calls := 0; usedBirthdates := ∅ |}
     ↔ ∃ fuel, ∀ fuel', (fuel ≤ fuel')%nat →
         ∃ employees, generateEmployeeData fuel' h dtoIn = Some employees
                      ∧ Z.of_nat (length employees) = count dtoIn)
  ∧ (keepsOffering (Z.to_nat (count dtoIn)) h (calculateDateRange h dtoIn) →
     findsUnused h (calculateDateRange h dtoIn) (Z.to_nat (count dtoIn))
       {| calls := 0; usedBirthdates := ∅ |}).
Proof.
  intros Hcount. split_and!.
  - intros fuel l Hl. apply generateEmployeeData_length in Hl. lia.
  - intros H0 fuel. unfold generateEmployeeData. by rewrite H0.
  - split.
    + intros Hfinds.
      apply generateEmployeeData_returns in Hfinds as [fuel Hfuel].
      exists fuel. intros fuel' Hle.
      destruct (Hfuel fuel' Hle) as [l Hl]. exists l. split; [done|].
      apply generateEmployeeData_length in Hl. lia.
    + intros [fuel Hfuel]. apply generateEmployeeData_returns.
      exists fuel. intros fuel' Hle.
      destruct (Hfuel fuel' Hle) as (l & Hl & _). by exists l.
  - intros Hoffer. apply generateEmployeeData_returns.
    exact (generateEmployeeData_ends h dtoIn Hoffer).
Qed.

Lemma generateEmployeeData_count_witness :
  0 ≤ count (twenties 2)
  ∧ findsUnused stallHost (calculateDateRange stallHost (twenties 2)) 2
      {| calls := 0; usedBirthdates := ∅ |}
  ∧ (∀ fuel employees,
       generateEmployeeData fuel stallHost (twenties 2) = Some employees →
       Z.of_nat (length employees) = 2)
  ∧ ∃ fuel, ∀ fuel', (fuel ≤ fuel')%nat →
      ∃ employees, generateEmployeeData fuel' stallHost (twenties 2) = Some employees
                   ∧ Z.of_nat (length employees) = 2.
Proof.
  assert (0 ≤ count (twenties 2)) as Hcount by (simpl; lia).
  destruct (generateEmployeeData_count stallHost (twenties 2) Hcount)
    as (Hlength & _ & [Hreturns _] & _).
  split; [exact Hcount|]. split; [exact stallHost_findsUnused|].
  split; [exact Hlength|]. exact (Hreturns stallHost_findsUnused).
Defined.

(** C1 as stated fails: age {min: 0, max: 0} is a valid range and count 2 a
    valid count, yet no run returns. *)
Lemma generateEmployeeData_count_counterexample :
  ¬ ∃ fuel employees,
      generateEmployeeData fuel utcHost (newborns 2) = Some employees
      ∧ length employees = 2%nat.
Proof.
  intros (fuel & l & Hl & _).
  by rewrite generateEmployeeData_zero_span in Hl.
Qed.

(** C2: in every sequence returned by generateEmployeeData the birthdate
    strings are pairwise distinct. *)
Theorem generateEmployeeData_distinct_birthdates
    (fuel : nat) (h : Host) (dtoIn : DtoIn) (employees : list Employee) :
  generateEmployeeData fuel h dtoIn = Some employees →
  NoDup (birthdate <$> employees).
Proof.
  unfold generateEmployeeData.
  destruct (generateLoop _ _ _ _ _ _) as [[l s]|] eqn:Hl; [|done].
  intros [= <-]. apply generateLoop_inv in Hl as [_ Hnd].
  apply Hnd; [constructor|]. intros b Hb. by apply elem_of_nil in Hb.
Qed.

Lemma generateEmployeeData_distinct_birthdates_witness :
  ∃ employees,
    generateEmployeeData 5 utcHost (twenties 3) = Some employees
    ∧ length employees = 3%nat
    ∧ NoDup (birthdate <$> employees).
Proof.
  eexists. split; [vm_compute; reflexivity|]. split; [reflexivity|].
  apply (generateEmployeeData_distinct_birthdates 5 utcHost (twenties 3)).
  vm_compute. reflexivity.
Defined.

(** C3 (amended): the call generate({count: 3, age: {min: 0, max: 0}}) never
    returns, whatever the random source, the clock and the time zone are:
    every draw gives the one instant of the zero-width span, so after the
    first employee the resampling loop runs forever.  Only the first
    employee is created: with count 1 the call returns. *)
Theorem generate_zero_span_never_returns (h : Host) (fuel : nat) :
  generateEmployeeData fuel h (newborns 3) = None
  ∧ ∃ e, generateEmployeeData (S fuel) h (newborns 1) = Some [e].
Proof.
  split.
  - by apply generateEmployeeData_zero_span.
  - by apply generateEmployeeData_single.
Qed.

(** C3 as stated fails: no run of the call returns. *)
Lemma generate_zero_span_counterexample :
  ¬ ∃ fuel employees,
      generateEmployeeData fuel utcHost (newborns 3) = Some employees
      ∧ length employees = 3%nat
      ∧ NoDup (birthdate <$> employees).
Proof.
  intros (fuel & l & Hl & _).
  by rewrite generateEmployeeData_zero_span in Hl.
Qed.

(** C4 (amended): for every input sequence none of whose names is a
    property name of %Object.prototype%, the counts of [all] add up to the
    number of employees, the counts of [male] and of [female] together add up
    to it as well, every name of [maleFullTime] is in [male] with a count at
    least as large, and every name of [femalePartTime] is in [female] with a
    count at least as large. *)
Theorem aggregate_bucket_sums (employees : list Employee) :
  Forall (λ e, ordinaryName (name e)) employees →
  let dto := getEmployeeChartContent employees in
  sumCounts (all (names dto)) = Some (Z.of_nat (length employees))
  ∧ (∃ m f, sumCounts (male (names dto)) = Some m
            ∧ sumCounts (female (names dto)) = Some f
            ∧ m + f = Z.of_nat (length employees))
  ∧ (∀ k v, JS.own (maleFullTime (names dto)) k = Some v →
       ∃ n m, v = JS.Num n ∧ JS.own (male (names dto)) k = Some (JS.Num m) ∧ n ≤ m)
  ∧ (∀ k v, JS.own (femalePartTime (names dto)) k = Some v →
       ∃ n m, v = JS.Num n ∧ JS.own (female (names dto)) k = Some (JS.Num m) ∧ n ≤ m).
Proof.
  intros Hord dto. subst dto.
  pose proof (names_sum BAll employees Hord) as Hall.
  pose proof (names_sum BMale employees Hord) as Hmale.
  pose proof (names_sum BFemale employees Hord) as Hfemale.
  pose proof (λ k, names_own BMale employees k Hord) as Hm.
  pose proof (λ k, names_own BFemale employees k Hord) as Hf.
  pose proof (λ k, names_own BMaleFullTime employees k Hord) as Hmft.
  pose proof (λ k, names_own BFemalePartTime employees k Hord) as Hfpt.
  cbn [bucket] in *. split_and!.
  - by rewrite Hall, counted_all.
  - eexists _, _. split_and!; [done..|].
    rewrite <- (gender_split employees). lia.
  - intros k v. rewrite Hmft, Hm.
    destruct (added_mono BMaleFullTime BMale employees k) as [Hin Hle];
      [by intros e []|].
    case_decide as Hk; [|done]. intros [= <-].
    rewrite decide_True by auto. by eexists _, _.
  - intros k v. rewrite Hfpt, Hf.
    destruct (added_mono BFemalePartTime BFemale employees k) as [Hin Hle];
      [by intros e []|].
    case_decide as Hk; [|done]. intros [= <-].
    rewrite decide_True by auto. by eexists _, _.
Qed.

Lemma aggregate_bucket_sums_witness :
  Forall (λ e, ordinaryName (name e)) janJanEva
  ∧ sumCounts (all (names (getEmployeeChartContent janJanEva))) = Some 3.
Proof.
  split; [compute_done|].
  apply (aggregate_bucket_sums janJanEva). compute_done.
Defined.

(** C4 as stated fails: an employee called [__proto__] is not counted at
    all, because assigning a number to that key of an object does nothing. *)
Lemma aggregate_bucket_sums_counterexample :
  sumCounts (all (names (getEmployeeChartContent proto)))
  ≠ Some (Z.of_nat (length proto)).
Proof. compute_done. Qed.

(** C5 (amended): for every input sequence none of whose names is a
    property name of %Object.prototype%, each chartData list is sorted by
    count descending; each names mapping enumerates its entries by count
    descending as well when, in addition, no name is an array index (such
    keys are enumerated first, in ascending numeric order). *)
Theorem aggregate_sorted_descending (employees : list Employee) (X : Bucket) :
  Forall (λ e, ordinaryName (name e)) employees →
  let dto := getEmployeeChartContent employees in
  descending (value <$> bucket X (chartData dto))
  ∧ (Forall (λ e, plainKey (name e)) employees →
     descending (JS.entries (bucket X (names dto))).*2).
Proof.
  intros Hord dto. subst dto.
  rewrite dto_chartData, dto_names, counted_bucket by done. split.
  - rewrite chart_values. apply sortedEntries_descending, tally_numeric.
  - intros Hplain. rewrite sortNamesObject_entries.
    + apply sortedEntries_descending, tally_numeric.
    + apply tally_NoDup.
    + apply tally_plain. unfold added. rewrite Forall_fmap.
      apply Forall_forall. intros e He.
      apply list_elem_of_filter in He as [_ He].
      rewrite Forall_forall in Hplain. by apply Hplain.
Qed.

Lemma aggregate_sorted_descending_witness :
  Forall (λ e, ordinaryName (name e)) janJanEva
  ∧ Forall (λ e, plainKey (name e)) janJanEva
  ∧ descending (value <$> all (chartData (getEmployeeChartContent janJanEva)))
  ∧ descending (JS.entries (all (names (getEmployeeChartContent janJanEva)))).*2.
Proof.
  split; [compute_done|]. split; [compute_done|].
  pose proof (aggregate_sorted_descending janJanEva BAll) as H.
  destruct H as [Hchart Hnames]; [compute_done|].
  split; [exact Hchart|]. apply Hnames. compute_done.
Defined.

(** C5 as stated fails: with the names "2", "2" and "1" the mapping
    [names.all] enumerates "1" (count 1) before "2" (count 2). *)
Lemma aggregate_sorted_descending_counterexample :
  ¬ descending (JS.entries (all (names (getEmployeeChartContent twoTwoOne)))).*2.
Proof.
  intros H.
  destruct (H 0%nat (JS.Num 1) (JS.Num 2)) as (na & nb & [= <-] & [= <-] & Hle);
    [compute_done..|lia].
Qed.

(** C6 (amended): for every input sequence none of whose names is an array
    index, and for each category, chartData is exactly the sequence of
    {label, value} pairs of the entries of the names mapping, in the same
    order. *)
Theorem chartData_mirrors_names (employees : list Employee) (X : Bucket) :
  Forall (λ e, plainKey (name e)) employees →
  let dto := getEmployeeChartContent employees in
  bucket X (chartData dto) = toChartItem <$> JS.entries (bucket X (names dto)).
Proof.
  intros Hplain dto. subst dto. rewrite dto_chartData, dto_names.
  destruct (counts_keys X employees) as [Hnd Hkeys]. cbn zeta in Hnd, Hkeys.
  rewrite sortNamesObject_entries; [done..|].
  apply Forall_forall. intros k Hk.
  apply Hkeys, list_elem_of_fmap in Hk as (e & -> & He).
  rewrite Forall_forall in Hplain. by apply Hplain.
Qed.

Lemma chartData_mirrors_names_witness :
  Forall (λ e, plainKey (name e)) janJanEva
  ∧ all (chartData (getEmployeeChartContent janJanEva))
    = toChartItem <$> JS.entries (all (names (getEmployeeChartContent janJanEva))).
Proof.
  split; [compute_done|].
  apply (chartData_mirrors_names janJanEva BAll). compute_done.
Defined.

(** C6 as stated fails: with the names "2", "2" and "1", chartData.all lists
    "2" first and the mapping names.all enumerates "1" first. *)
Lemma chartData_mirrors_names_counterexample :
  all (chartData (getEmployeeChartContent twoTwoOne))
  ≠ toChartItem <$> JS.entries (all (names (getEmployeeChartContent twoTwoOne))).
Proof. vm_compute. discriminate. Qed.

(** C7: two calls of getEmployeeChartContent on the same employee sequence
    give the same result: equal mappings, equal orders of their entries and
    equal chart lists.  (Each call counts into dictionaries of its own, and
    nothing but the sequence is read.) *)
Theorem getEmployeeChartContent_deterministic (employees : list Employee) :
  let first := getEmployeeChartContent employees in
  let second := getEmployeeChartContent employees in
  first = second
  ∧ ∀ X, bucket X (names first) = bucket X (names second)
         ∧ JS.entries (bucket X (names first)) = JS.entries (bucket X (names second))
         ∧ bucket X (chartData first) = bucket X (chartData second).
Proof. intros first second. subst first second. by split. Qed.

(** C8 (the code departs from it): the string is made of the fields of
    local time and still marked Z, so it denotes the sampled instant shifted
    by the offset of the time zone.  In a host one hour east of UTC the
    instant 1970-01-01T00:00:00.000Z is formatted as 01:00:00.000Z, and the
    birthdate of a generated employee is one hour off; in any host a year
    before 1000 is written with fewer than four digits. *)
Theorem formatDateToISO_local_fields :
  (∀ (h : Host) (t : Z),
     formatDateToISO h (Some t) = formatDateToISO utcHost (Some (t + tzaOfUTC h t)))
  ∧ formatDateToISO cetHost (Some 0) = "1970-01-01T01:00:00.000Z"
  ∧ toISOString 0 = "1970-01-01T00:00:00.000Z"
  ∧ (λ l : list Employee, birthdate <$> l) <$> generateEmployeeData 1 cetHost (twenties 1)
    = Some ["1999-05-04T07:13:20.123Z"]
  ∧ toISOString <$> (randomDate (calculateDateRange cetHost (twenties 1))
                       (random cetHost 4 `mod` two53) : option Z)
    = Some "1999-05-04T06:13:20.123Z"
  ∧ formatDateToISO utcHost (Some (-30641760000000)) = "999-01-01T00:00:00.000Z"
  ∧ toISOString (-30641760000000) = "0999-01-01T00:00:00.000Z".
Proof.
  split.
  - intros h t. unfold formatDateToISO, getFullYear, getMonth, getDate, getHours,
      getMinutes, getSeconds, getMilliseconds, LocalTime.
    cbn [mbind option_bind utcHost tzaOfUTC]. rewrite Z.add_0_r. reflexivity.
  - split_and!; compute_done.
Qed.

(** C9 (amended): for every input sequence none of whose names is a
    property name of %Object.prototype% or an array index, and for each
    category, the names of equal count appear, in chartData and in the names
    mapping, in the order in which they were first counted in that
    category. *)
Theorem ties_in_first_counted_order (employees : list Employee) (X : Bucket) (c : Z) :
  Forall (λ e, ordinaryName (name e)) employees →
  Forall (λ e, plainKey (name e)) employees →
  let dto := getEmployeeChartContent employees in
  let firstCounted :=
    filter (λ k, occurrences k (added X employees) = c) (firstSeen (added X employees)) in
  label <$> filter (λ item, value item = JS.Num c) (bucket X (chartData dto))
    = firstCounted
  ∧ (filter (λ p, p.2 = JS.Num c) (JS.entries (bucket X (names dto)))).*1
    = firstCounted.
Proof.
  intros Hord Hplain dto firstCounted. subst dto firstCounted.
  assert (Forall plainKey (added X employees)) as Hadded.
  { unfold added. rewrite Forall_fmap. apply Forall_forall. intros e He.
    apply list_elem_of_filter in He as [_ He].
    rewrite Forall_forall in Hplain. by apply Hplain. }
  rewrite dto_chartData, dto_names, counted_bucket by done. split.
  - unfold sortAndConvertToChartData.
    rewrite filter_fmap_comm, <- list_fmap_compose.
    by rewrite <- sortedEntries_ties.
  - rewrite sortNamesObject_entries;
      [by apply sortedEntries_ties|apply tally_NoDup|by apply tally_plain].
Qed.

Lemma ties_in_first_counted_order_witness :
  Forall (λ e, ordinaryName (name e)) tied
  ∧ Forall (λ e, plainKey (name e)) tied
  ∧ label <$> filter (λ item, value item = JS.Num 1)
                (all (chartData (getEmployeeChartContent tied)))
    = ["Eva"; "Anna"; "Petr"].
Proof.
  split; [compute_done|]. split; [compute_done|].
  etrans; [apply (ties_in_first_counted_order tied BAll 1); compute_done|].
  compute_done.
Defined.

(** C9 as stated fails: "2" is counted before "1", both once, and the
    output lists "1" before "2". *)
Lemma ties_in_first_counted_order_counterexample :
  label <$> filter (λ item, value item = JS.Num 1)
              (all (chartData (getEmployeeChartContent twoOne)))
  ≠ filter (λ k, occurrences k (added BAll twoOne) = 1) (firstSeen (added BAll twoOne)).
Proof. compute_done. Qed.

(** C10 (amended): for every input sequence none of whose names is a
    property name of %Object.prototype%, every employee whose gender is not
    exactly "male" is counted in [female], whose count for the name is the
    number of such employees of that name, and in [femalePartTime] when the
    workload is not 40; the counts of [male] and [female] together add up to
    the number of employees. *)
Theorem not_male_counted_as_female (employees : list Employee) (e : Employee) :
  Forall (λ e, ordinaryName (name e)) employees →
  e ∈ employees →
  gender e ≠ "male" →
  let dto := getEmployeeChartContent employees in
  (∃ n, 1 ≤ n
        ∧ n = occurrences (name e) (added BFemale employees)
        ∧ JS.own (female (names dto)) (name e) = Some (JS.Num n))
  ∧ (workload e ≠ 40 →
     ∃ n, 1 ≤ n
          ∧ n = occurrences (name e) (added BFemalePartTime employees)
          ∧ JS.own (femalePartTime (names dto)) (name e) = Some (JS.Num n))
  ∧ (∃ m f, sumCounts (male (names dto)) = Some m
            ∧ sumCounts (female (names dto)) = Some f
            ∧ m + f = Z.of_nat (length employees)).
Proof.
  intros Hord He Hgender dto. subst dto.
  pose proof (names_sum BMale employees Hord) as Hmale.
  pose proof (names_sum BFemale employees Hord) as Hfemale.
  pose proof (λ k, names_own BFemale employees k Hord) as Hf.
  pose proof (λ k, names_own BFemalePartTime employees k Hord) as Hfpt.
  cbn [bucket] in *. split_and!.
  - pose proof (added_elem BFemale employees e He Hgender) as Hin.
    eexists. split_and!; [|done|by rewrite Hf, decide_True].
    pose proof (occurrences_pos _ _ Hin). lia.
  - intros Hpart.
    pose proof (added_elem BFemalePartTime employees e He (conj Hgender Hpart)) as Hin.
    eexists. split_and!; [|done|by rewrite Hfpt, decide_True].
    pose proof (occurrences_pos _ _ Hin). lia.
  - eexists _, _. split_and!; [done..|].
    rewrite <- (gender_split employees). lia.
Qed.

Lemma not_male_counted_as_female_witness :
  Forall (λ e, ordinaryName (name e)) janJanEva
  ∧ employee "female" "Eva" 10 ∈ janJanEva
  ∧ ∃ n, 1 ≤ n
         ∧ n = occurrences "Eva" (added BFemale janJanEva)
         ∧ JS.own (female (names (getEmployeeChartContent janJanEva))) "Eva"
           = Some (JS.Num n).
Proof.
  split; [compute_done|]. split; [compute_done|].
  apply (not_male_counted_as_female janJanEva (employee "female" "Eva" 10));
    compute_done.
Defined.

(** C10 as stated fails: an employee that is not male and is called
    [__proto__] is in neither gender category. *)
Lemma not_male_counted_as_female_counterexample :
  ¬ (∀ e, e ∈ proto → gender e ≠ "male" →
       is_Some (JS.own (female (names (getEmployeeChartContent proto))) (name e))
       ∨ is_Some (JS.own (male (names (getEmployeeChartContent proto))) (name e))).
Proof.
  intros H.
  destruct (H (employee "other" "__proto__" 10)) as [[v Hv]|[v Hv]];
    [compute_done..|discriminate Hv|discriminate Hv].
Qed.

(** * Further properties of the generator *)

Section Fields.
Context (h : Host) (dateRange : DateRange).

Lemma two53_pos : 0 < two53.
Proof. reflexivity. Qed.

(** [Math.floor(r * n)] is an index into a list of length [n]. *)
Lemma floorScaled_range (k n : Z) :
  0 ≤ k < two53 → 0 < n → 0 ≤ floorScaled k n < n.
Proof.
  intros Hk Hn. unfold floorScaled. pose proof two53_pos. split.
  - apply Z.div_pos; nia.
  - apply Z.div_lt_upper_bound; nia.
Qed.

Lemma nth_elem {A} (l : list A) (d : A) (i : nat) :
  (i < length l)%nat → nth i l d ∈ l.
Proof. intros Hi. by apply list_elem_of_In, nth_In. Qed.

Lemma item_elem (l : list string) (k : Z) :
  0 ≤ k < two53 → l ≠ [] → item l (floorScaled k (Z.of_nat (length l))) ∈ l.
Proof.
  intros Hk Hl. unfold item. apply nth_elem.
  destruct (floorScaled_range k (Z.of_nat (length l)) Hk) as [? ?].
  { destruct l; [done|simpl; lia]. }
  lia.
Qed.

Lemma mathRandom_range (i : nat) : 0 ≤ random h i `mod` two53 < two53.
Proof. apply Z.mod_pos_bound, two53_pos. Qed.

(** The fields of a created employee. *)
Lemma createEmployee_fields fuel s e s' :
  createEmployee fuel h getNameLists getSurnameList dateRange s = Some (e, s') →
  (gender e = "male" ∧ name e ∈ maleNames getNameLists
   ∨ gender e = "female" ∧ name e ∈ femaleNames getNameLists)
  ∧ workload e ∈ [10; 20; 30; 40]
  ∧ surname e ∈ getSurnameList.
Proof.
  unfold createEmployee, bind, mathRandom, ret. cbn [calls usedBirthdates].
  destruct (generateUniqueBirthdate _ _ _ _) as [[b s1]|]; [|done].
  intros [= <- <-]. cbn [gender name workload surname]. split_and!.
  - destruct (decide (2 * (random h (calls s) `mod` two53) < two53)).
    + left. split; [done|]. rewrite decide_True by done.
      apply item_elem; [apply mathRandom_range|done].
    + right. split; [done|]. rewrite decide_False by done.
      apply item_elem; [apply mathRandom_range|done].
  - apply (nth_elem [10; 20; 30; 40] 0
             (Z.to_nat (floorScaled (random h (S (calls s)) `mod` two53) 4))).
    destruct (floorScaled_range (random h (S (calls s)) `mod` two53) 4)
      as [? ?]; [apply mathRandom_range|lia|].
    change (length [10; 20; 30; 40]) with 4%nat. lia.
  - apply item_elem; [apply mathRandom_range|done].
Qed.

(** What holds of every created employee holds of every employee of the
    returned sequence. *)
Lemma generateLoop_Forall (P : Employee → Prop) fuel n employees s l s' :
  (∀ s0 e s1,
     createEmployee fuel h getNameLists getSurnameList dateRange s0 = Some (e, s1) →
     P e) →
  Forall P employees →
  generateLoop fuel h dateRange n employees s = Some (l, s') →
  Forall P l.
Proof.
  intros HP. revert employees s. induction n as [|n IH]; intros employees s Hacc.
  - by intros [= <- <-].
  - rewrite generateLoop_step.
    destruct (createEmployee _ _ _ _ _ _) as [[e s1]|] eqn:He; [|done].
    apply IH. apply Forall_app. split; [done|].
    apply Forall_singleton. by eapply HP.
Qed.

End Fields.

Lemma generateEmployeeData_Forall (P : Employee → Prop) fuel h dtoIn employees :
  (∀ s0 e s1,
     createEmployee fuel h getNameLists getSurnameList
       (calculateDateRange h dtoIn) s0 = Some (e, s1) → P e) →
  generateEmployeeData fuel h dtoIn = Some employees →
  Forall P employees.
Proof.
  intros HP. unfold generateEmployeeData.
  destruct (generateLoop _ _ _ _ _ _) as [[l s]|] eqn:Hl; [|done].
  intros [= <-]. by eapply generateLoop_Forall.
Qed.

Lemma generated_name_fields fuel h dtoIn employees :
  generateEmployeeData fuel h dtoIn = Some employees →
  Forall (λ e, gender e = "male" ∧ name e ∈ maleNames getNameLists
               ∨ gender e = "female" ∧ name e ∈ femaleNames getNameLists)
         employees.
Proof.
  apply generateEmployeeData_Forall. intros s0 e s1 He.
  by apply createEmployee_fields in He as (? & _ & _).
Qed.

(** X1: in every sequence returned by generateEmployeeData each employee is
    "male" with a name of the male list or "female" with a name of the
    female list. *)
Theorem generated_name_matches_gender
    (fuel : nat) (h : Host) (dtoIn : DtoIn) (employees : list Employee) :
  generateEmployeeData fuel h dtoIn = Some employees →
  Forall (λ e, gender e = "male" ∧ name e ∈ maleNames getNameLists
               ∨ gender e = "female" ∧ name e ∈ femaleNames getNameLists)
         employees.
Proof.
  apply generateEmployeeData_Forall. intros s0 e s1 He.
  by apply createEmployee_fields in He as (? & _ & _).
Qed.

Lemma generated_name_matches_gender_witness :
  ∃ employees,
    generateEmployeeData 5 utcHost (twenties 3) = Some employees
    ∧ Forall (λ e, gender e = "male" ∧ name e ∈ maleNames getNameLists
                   ∨ gender e = "female" ∧ name e ∈ femaleNames getNameLists)
             employees.
Proof.
  eexists. split; [vm_compute; reflexivity|].
  apply (generated_name_matches_gender 5 utcHost (twenties 3)).
  vm_compute. reflexivity.
Defined.

(** X2: in every sequence returned by generateEmployeeData each workload is
    10, 20, 30 or 40. *)
Theorem generated_workload
    (fuel : nat) (h : Host) (dtoIn : DtoIn) (employees : list Employee) :
  generateEmployeeData fuel h dtoIn = Some employees →
  Forall (λ e, workload e ∈ [10; 20; 30; 40]) employees.
Proof.
  apply generateEmployeeData_Forall. intros s0 e s1 He.
  by apply createEmployee_fields in He as (_ & ? & _).
Qed.

Lemma generated_workload_witness :
  ∃ employees,
    generateEmployeeData 5 utcHost (twenties 3) = Some employees
    ∧ Forall (λ e, workload e ∈ [10; 20; 30; 40]) employees.
Proof.
  eexists. split; [vm_compute; reflexivity|].
  apply (generated_workload 5 utcHost (twenties 3)).
  vm_compute. reflexivity.
Defined.

(** X3: in every sequence returned by generateEmployeeData each surname is
    one of the surname list. *)
Theorem generated_surname
    (fuel : nat) (h : Host) (dtoIn : DtoIn) (employees : list Employee) :
  generateEmployeeData fuel h dtoIn = Some employees →
  Forall (λ e, surname e ∈ getSurnameList) employees.
Proof.
  apply generateEmployeeData_Forall. intros s0 e s1 He.
  by apply createEmployee_fields in He as (_ & _ & ?).
Qed.

Lemma generated_surname_witness :
  ∃ employees,
    generateEmployeeData 5 utcHost (twenties 3) = Some employees
    ∧ Forall (λ e, surname e ∈ getSurnameList) employees.
Proof.
  eexists. split; [vm_compute; reflexivity|].
  apply (generated_surname 5 utcHost (twenties 3)).
  vm_compute. reflexivity.
Defined.

(** X4: generateUniqueBirthdate returns the first candidate, in the order
    of the draws, that is not in usedBirthdates: every earlier draw of the
    call gave a used string, the result was not used, and the set afterwards
    is the set before plus the result. *)
Theorem generateUniqueBirthdate_returns_first_unused
    (fuel : nat) (h : Host) (dateRange : DateRange) (s : Run) (b : string) (s' : Run) :
  generateUniqueBirthdate fuel h dateRange s = Some (b, s') →
  ∃ d : nat,
    calls s' = S (d + calls s)
    ∧ b = candidate h dateRange (d + calls s)
    ∧ (∀ i : nat, (i < d)%nat → candidate h dateRange (i + calls s) ∈ usedBirthdates s)
    ∧ (b ∉ usedBirthdates s)
    ∧ usedBirthdates s' = {[ b ]} ∪ usedBirthdates s.
Proof. apply generateUniqueBirthdate_first. Qed.

Lemma generateUniqueBirthdate_returns_first_unused_witness :
  ∃ b s',
    generateUniqueBirthdate 3 flipHost flipRange flipUsed = Some (b, s')
    ∧ ∃ d : nat,
        calls s' = S (d + calls flipUsed)
        ∧ b = candidate flipHost flipRange (d + calls flipUsed)
        ∧ (∀ i : nat, (i < d)%nat →
             candidate flipHost flipRange (i + calls flipUsed) ∈ usedBirthdates flipUsed)
        ∧ (b ∉ usedBirthdates flipUsed)
        ∧ usedBirthdates s' = {[ b ]} ∪ usedBirthdates flipUsed.
Proof.
  eexists _, _. split; [vm_compute; reflexivity|].
  apply (generateUniqueBirthdate_returns_first_unused 3 flipHost flipRange flipUsed).
  vm_compute. reflexivity.
Defined.

Section ConstantCandidates.
Context (h : Host) (dtoIn : DtoIn) (b0 : string).
Context (Hconst : ∀ i, candidate h (calculateDateRange h dtoIn) i = b0).

Lemma constant_candidates_stuck fuel :
  2 ≤ count dtoIn → generateEmployeeData fuel h dtoIn = None.
Proof.
  intros Hcount. unfold generateEmployeeData.
  destruct (Z.to_nat (count dtoIn)) as [|[|n]] eqn:Hn; [lia..|].
  by erewrite generateLoop_stuck.
Qed.

Lemma constant_candidates_birthdate fuel employees :
  generateEmployeeData fuel h dtoIn = Some employees →
  Forall (λ e, birthdate e = b0) employees.
Proof.
  apply generateEmployeeData_Forall. intros s0 e s1 He.
  pose proof (createEmployee_birthdate h (calculateDateRange h dtoIn) fuel s0) as Hb.
  rewrite He in Hb.
  apply generateUniqueBirthdate_fresh in Hb as (_ & _ & _ & [i ->]).
  apply Hconst.
Qed.

End ConstantCandidates.

Lemma TimeClip_Some (t u : Z) : TimeClip t = Some u → u = t ∧ Z.abs t ≤ maxTime.
Proof. unfold TimeClip. case_decide; [done|]. intros [= <-]. split; [done|lia]. Qed.

Lemma setFullYear_valid (h : Host) (date : Date) (year : option Z) (t : Z) :
  setFullYear h date year = Some t → Z.abs t ≤ maxTime.
Proof.
  unfold setFullYear. destruct year as [y|]; [|done]. cbn [mbind option_bind].
  intros Ht. apply TimeClip_Some in Ht as [-> ?]. done.
Qed.

(** With [age.min = age.max] every draw gives the Date [minDate]. *)
Lemma randomDate_zero_span (h : Host) (dtoIn : DtoIn) (k : Z) :
  min (age dtoIn) = max (age dtoIn) →
  randomDate (calculateDateRange h dtoIn) k = minDate (calculateDateRange h dtoIn).
Proof.
  intros Hage. unfold calculateDateRange, randomDate. cbn [minDate range].
  rewrite Hage. destruct (setFullYear h _ _) as [t|] eqn:Ht; [|reflexivity].
  cbn [mbind option_bind]. apply setFullYear_valid in Ht.
  rewrite Z.sub_diag, Z.mul_0_r, Z.add_0_r, Z.quot_mul by done.
  pose proof two53_pos. rewrite decide_False; [done|].
  rewrite Z.abs_mul, (Z.abs_eq two53) by lia. nia.
Qed.

(** X5: when [age.min = age.max], whatever the ages are, the one birthdate
    generateEmployeeData can give is the formatted [minDate]: every employee
    of a returned sequence has it, and no run returns when two or more
    employees are asked for. *)
Theorem generateEmployeeData_equal_ages (h : Host) (dtoIn : DtoIn) :
  min (age dtoIn) = max (age dtoIn) →
  (2 ≤ count dtoIn → ∀ fuel, generateEmployeeData fuel h dtoIn = None)
  ∧ (∀ fuel employees,
       generateEmployeeData fuel h dtoIn = Some employees →
       Forall (λ e, birthdate e
                    = formatDateToISO h (minDate (calculateDateRange h dtoIn)))
              employees).
Proof.
  intros Hage.
  assert (∀ i, candidate h (calculateDateRange h dtoIn) i
               = formatDateToISO h (minDate (calculateDateRange h dtoIn))) as Hconst.
  { intros i. unfold candidate. by rewrite randomDate_zero_span. }
  split.
  - intros Hcount fuel. by eapply constant_candidates_stuck.
  - intros fuel employees. by apply constant_candidates_birthdate.
Qed.

Lemma generateEmployeeData_equal_ages_witness :
  min (age (thirties 5)) = max (age (thirties 5))
  ∧ 2 ≤ count (thirties 5)
  ∧ ∀ fuel, generateEmployeeData fuel utcHost (thirties 5) = None.
Proof.
  split; [reflexivity|]. split; [simpl; lia|].
  apply (generateEmployeeData_equal_ages utcHost (thirties 5)).
  - reflexivity.
  - simpl. lia.
Defined.

(** X6: when an end of the date range is an invalid Date (an age limit
    beyond the range of Date), every birthdate is the string made of NaN
    fields, and no run returns when two or more employees are asked for. *)
Theorem generateEmployeeData_invalid_range (h : Host) (dtoIn : DtoIn) :
  range (calculateDateRange h dtoIn) = None →
  (2 ≤ count dtoIn → ∀ fuel, generateEmployeeData fuel h dtoIn = None)
  ∧ (∀ fuel employees,
       generateEmployeeData fuel h dtoIn = Some employees →
       Forall (λ e, birthdate e = invalidDateString) employees).
Proof.
  intros Hrange.
  assert (∀ i, candidate h (calculateDateRange h dtoIn) i = invalidDateString)
    as Hconst.
  { intros i. unfold candidate, randomDate. rewrite Hrange.
    by destruct (minDate _). }
  split.
  - intros Hcount fuel. by eapply constant_candidates_stuck.
  - intros fuel employees. by apply constant_candidates_birthdate.
Qed.

Lemma generateEmployeeData_invalid_range_witness :
  range (calculateDateRange utcHost (ancients 1)) = None
  ∧ ∃ employees,
      generateEmployeeData 1 utcHost (ancients 1) = Some employees
      ∧ Forall (λ e, birthdate e = invalidDateString) employees.
Proof.
  split; [vm_compute; reflexivity|].
  eexists. split; [vm_compute; reflexivity|].
  apply (proj2 (generateEmployeeData_invalid_range utcHost (ancients 1)
                  ltac:(vm_compute; reflexivity)) 1%nat).
  vm_compute. reflexivity.
Defined.

(** * Further properties of the whole pipeline *)

(** No name of the two lists is a property name of %Object.prototype% or an
    array index. *)
Lemma corpus_names :
  Forall (λ k, ordinaryName k ∧ plainKey k)
         (maleNames getNameLists ++ femaleNames getNameLists).
Proof. compute_done. Qed.

Lemma generated_names fuel h dtoIn employees :
  generateEmployeeData fuel h dtoIn = Some employees →
  Forall (λ e, ordinaryName (name e)) employees
  ∧ Forall (λ e, plainKey (name e)) employees.
Proof.
  intros Hgen. pose proof corpus_names as Hcorpus.
  rewrite Forall_forall in Hcorpus.
  assert (Forall (λ e, ordinaryName (name e) ∧ plainKey (name e)) employees) as H.
  { eapply generateEmployeeData_Forall; [|exact Hgen]. intros s0 e s1 He.
    apply createEmployee_fields in He as ([[_ Hn]|[_ Hn]] & _ & _);
      apply Hcorpus, elem_of_app; auto. }
  split; eapply Forall_impl; try exact H; by intros e [].
Qed.

Lemma main_inv fuel h dtoIn dto :
  main fuel h dtoIn = Some dto →
  ∃ employees,
    generateEmployeeData fuel h dtoIn = Some employees
    ∧ dto = getEmployeeChartContent employees.
Proof.
  unfold main. destruct (generateEmployeeData fuel h dtoIn) as [employees|]; [|done].
  intros [= <-]. by exists employees.
Qed.

Lemma added_Forall (P : string → Prop) X (employees : list Employee) :
  Forall (λ e, P (name e)) employees → Forall P (added X employees).
Proof.
  intros H. unfold added. rewrite Forall_fmap.
  apply Forall_forall. intros e He.
  apply list_elem_of_filter in He as [_ He].
  rewrite Forall_forall in H. by apply H.
Qed.

(** X7: in every result of main the counts of [all] add up to the number of
    employees asked for, and so do the counts of [male] and [female]
    together. *)
Theorem main_counts_add_up (fuel : nat) (h : Host) (dtoIn : DtoIn) (dto : DtoOut) :
  main fuel h dtoIn = Some dto →
  sumCounts (all (names dto)) = Some (Z.max 0 (count dtoIn))
  ∧ ∃ m f, sumCounts (male (names dto)) = Some m
           ∧ sumCounts (female (names dto)) = Some f
           ∧ m + f = Z.max 0 (count dtoIn).
Proof.
  intros (employees & Hgen & ->)%main_inv.
  destruct (generated_names _ _ _ _ Hgen) as [Hord _].
  apply generateEmployeeData_length in Hgen.
  pose proof (names_sum BAll employees Hord) as Hall.
  pose proof (names_sum BMale employees Hord) as Hmale.
  pose proof (names_sum BFemale employees Hord) as Hfemale.
  cbn [bucket] in *. rewrite counted_all in Hall. split.
  - rewrite Hall. f_equal. lia.
  - eexists _, _. split_and!; [done..|].
    pose proof (gender_split employees). lia.
Qed.

Lemma main_counts_add_up_witness :
  ∃ dto,
    main 5 utcHost (twenties 3) = Some dto
    ∧ sumCounts (all (names dto)) = Some 3.
Proof.
  eexists. split; [vm_compute; reflexivity|].
  apply (main_counts_add_up 5 utcHost (twenties 3)).
  vm_compute. reflexivity.
Defined.

(** X8: in every result of main, and for each category, chartData is the
    list of {label, value} pairs of the entries of the names mapping, in the
    same order, and the counts do not increase along it. *)
Theorem main_views_agree
    (fuel : nat) (h : Host) (dtoIn : DtoIn) (dto : DtoOut) (X : Bucket) :
  main fuel h dtoIn = Some dto →
  bucket X (chartData dto) = toChartItem <$> JS.entries (bucket X (names dto))
  ∧ descending (value <$> bucket X (chartData dto))
  ∧ descending (JS.entries (bucket X (names dto))).*2.
Proof.
  intros (employees & Hgen & ->)%main_inv.
  destruct (generated_names _ _ _ _ Hgen) as [Hord Hplain].
  rewrite dto_chartData, dto_names, counted_bucket by done.
  rewrite sortNamesObject_entries;
    [|apply tally_NoDup|by apply tally_plain, added_Forall].
  split_and!; [done| |].
  - rewrite chart_values. apply sortedEntries_descending, tally_numeric.
  - apply sortedEntries_descending, tally_numeric.
Qed.

Lemma main_views_agree_witness :
  ∃ dto,
    main 5 utcHost (twenties 3) = Some dto
    ∧ all (chartData dto) = toChartItem <$> JS.entries (all (names dto)).
Proof.
  eexists. split; [vm_compute; reflexivity|].
  apply (main_views_agree 5 utcHost (twenties 3) _ BAll).
  vm_compute. reflexivity.
Defined.

Lemma chart_labels_added X (employees : list Employee) (item : ChartItem) :
  item ∈ bucket X (chartData (getEmployeeChartContent employees)) →
  label item ∈ added X employees.
Proof.
  rewrite dto_chartData, countNamesByCategory_bucket.
  assert (bucket X initializeNameCounts = []) as -> by by destruct X.
  intros Hitem.
  assert (label item ∈ label <$> sortAndConvertToChartData
            (fold_left increment (added X employees) [])) as Hlabel.
  { apply list_elem_of_fmap. by exists item. }
  rewrite chart_labels, sortedEntries_perm in Hlabel.
  destruct (fold_increment_keys (added X employees) []) as [_ Hk]; [constructor|].
  destruct (Hk _ Hlabel) as [?|Hnil]; [done|]. by apply elem_of_nil in Hnil.
Qed.

(** X9: in every result of main the names of [male] and [maleFullTime] are
    names of the male list, and the names of [female] and [femalePartTime]
    are names of the female list. *)
Theorem main_names_by_gender (fuel : nat) (h : Host) (dtoIn : DtoIn) (dto : DtoOut) :
  main fuel h dtoIn = Some dto →
  Forall (λ item, label item ∈ maleNames getNameLists) (male (chartData dto))
  ∧ Forall (λ item, label item ∈ maleNames getNameLists) (maleFullTime (chartData dto))
  ∧ Forall (λ item, label item ∈ femaleNames getNameLists) (female (chartData dto))
  ∧ Forall (λ item, label item ∈ femaleNames getNameLists) (femalePartTime (chartData dto)).
Proof.
  intros (employees & Hgen & ->)%main_inv.
  pose proof (generated_name_fields fuel h dtoIn employees Hgen) as Hfields.
  rewrite Forall_forall in Hfields.
  assert (∀ X item,
    item ∈ bucket X (chartData (getEmployeeChartContent employees)) →
    ∃ e, e ∈ employees ∧ counted X e ∧ name e = label item) as Hfrom.
  { intros X item Hitem. apply chart_labels_added in Hitem.
    unfold added in Hitem. apply list_elem_of_fmap in Hitem as (e & Hname & He).
    apply list_elem_of_filter in He as [HX He]. by exists e. }
  split_and!; apply Forall_forall; intros item Hitem.
  - destruct (Hfrom BMale item Hitem) as (e & He & HX & <-). simpl in HX.
    destruct (Hfields e He) as [[_ ?]|[Hg _]]; [done|congruence].
  - destruct (Hfrom BMaleFullTime item Hitem) as (e & He & [HX _] & <-). simpl in HX.
    destruct (Hfields e He) as [[_ ?]|[Hg _]]; [done|congruence].
  - destruct (Hfrom BFemale item Hitem) as (e & He & HX & <-). simpl in HX.
    destruct (Hfields e He) as [[Hg _]|[_ ?]]; [done|done].
  - destruct (Hfrom BFemalePartTime item Hitem) as (e & He & [HX _] & <-). simpl in HX.
    destruct (Hfields e He) as [[Hg _]|[_ ?]]; [done|done].
Qed.

Lemma main_names_by_gender_witness :
  ∃ dto,
    main 5 utcHost (twenties 3) = Some dto
    ∧ Forall (λ item, label item ∈ maleNames getNameLists) (male (chartData dto)).
Proof.
  eexists. split; [vm_compute; reflexivity|].
  apply (main_names_by_gender 5 utcHost (twenties 3)).
  vm_compute. reflexivity.
Defined.

(** * Further properties of the aggregator *)

(** X10: for every input sequence and each category, no name occurs twice
    in chartData or in the names mapping. *)
Theorem bucket_names_distinct (employees : list Employee) (X : Bucket) :
  let dto := getEmployeeChartContent employees in
  NoDup (label <$> bucket X (chartData dto))
  ∧ NoDup (JS.entries (bucket X (names dto))).*1.
Proof.
  intros dto. subst dto. rewrite dto_chartData, dto_names.
  destruct (counts_keys X employees) as [Hnd _]. cbn zeta in Hnd. split.
  - by rewrite chart_labels, sortedEntries_perm.
  - rewrite sortNamesObject_props by done.
    by rewrite entries_perm, sortedEntries_perm.
Qed.

Lemma occurrences_perm (k : string) (l l' : list string) :
  l ≡ₚ l' → occurrences k l = occurrences k l'.
Proof. intros Hl. unfold occurrences. by rewrite Hl. Qed.

Lemma added_perm X (employees employees' : list Employee) :
  employees ≡ₚ employees' → added X employees ≡ₚ added X employees'.
Proof. intros H. unfold added. by rewrite H. Qed.

Lemma tally_perm (l l' : list string) : l ≡ₚ l' → tally l ≡ₚ tally l'.
Proof.
  intros Hl. unfold tally.
  assert (firstSeen l ≡ₚ firstSeen l') as Hfirst.
  { apply NoDup_Permutation; [apply firstSeen_NoDup..|].
    intros k. by rewrite !firstSeen_elem, Hl. }
  rewrite (list_fmap_ext _ (λ k, (k, JS.Num (occurrences k l'))) (firstSeen l)).
  - by rewrite Hfirst.
  - intros i k _. simpl. by rewrite (occurrences_perm k l l').
Qed.

(** X11: the order of the input matters for the order of the output only:
    for two sequences with the same employees, none called like a property
    of %Object.prototype%, each category holds the same count for every name
    and chartData lists the same pairs. *)
Theorem counts_ignore_input_order
    (employees employees' : list Employee) (X : Bucket) :
  employees ≡ₚ employees' →
  Forall (λ e, ordinaryName (name e)) employees →
  let dto := getEmployeeChartContent employees in
  let dto' := getEmployeeChartContent employees' in
  (∀ k, JS.own (bucket X (names dto)) k = JS.own (bucket X (names dto')) k)
  ∧ bucket X (chartData dto) ≡ₚ bucket X (chartData dto').
Proof.
  intros Hperm Hord dto dto'. subst dto dto'.
  assert (Forall (λ e, ordinaryName (name e)) employees') as Hord'
    by by rewrite <- Hperm.
  pose proof (added_perm X _ _ Hperm) as Hadded. split.
  - intros k. rewrite !names_own by done.
    rewrite (occurrences_perm k _ _ Hadded).
    apply decide_ext. by rewrite Hadded.
  - rewrite !dto_chartData, !counted_bucket by done.
    unfold sortAndConvertToChartData.
    by rewrite !sortedEntries_perm, (tally_perm _ _ Hadded).
Qed.

Lemma counts_ignore_input_order_witness :
  tied ≡ₚ tiedShuffled
  ∧ Forall (λ e, ordinaryName (name e)) tied
  ∧ all (chartData (getEmployeeChartContent tied))
    ≡ₚ all (chartData (getEmployeeChartContent tiedShuffled)).
Proof.
  assert (tied ≡ₚ tiedShuffled) as Hperm.
  { unfold tied, tiedShuffled. apply NoDup_Permutation.
    - compute_done.
    - compute_done.
    - intros e. rewrite !elem_of_cons, !elem_of_nil. tauto. }
  split; [exact Hperm|]. split; [compute_done|].
  apply (counts_ignore_input_order tied tiedShuffled BAll Hperm). compute_done.
Defined.

Lemma countEmployee_proto (nameCounts : Buckets JS.obj) (e : Employee) :
  name e = "__proto__" → countEmployee nameCounts e = nameCounts.
Proof.
  intros He. unfold countEmployee. rewrite He.
  assert (∀ o, increment o "__proto__" = o) as Hinc by done.
  rewrite !Hinc. destruct nameCounts. by repeat case_decide.
Qed.

(** X12: for every input sequence, the employees called [__proto__] leave
    no trace: the result is that of the sequence without them. *)
Theorem proto_employees_ignored (employees : list Employee) :
  getEmployeeChartContent employees
  = getEmployeeChartContent (filter (λ e, name e ≠ "__proto__") employees).
Proof.
  unfold getEmployeeChartContent, analyzeEmployeeNames. f_equal.
  unfold countNamesByCategory. generalize initializeNameCounts.
  induction employees as [|e employees IH]; intros nc; [done|].
  rewrite filter_cons.
  destruct (decide (name e ≠ "__proto__")) as [He|He]; simpl.
  - apply IH.
  - apply dec_stable in He. rewrite countEmployee_proto by done. apply IH.
Qed.

(** X13: for every input sequence none of whose names is a property name of
    %Object.prototype%, chartData of a category lists exactly the names of
    the employees the category counts, each with the number of these
    employees of that name. *)
Theorem chartData_lists_counted_names
    (employees : list Employee) (X : Bucket) (item : ChartItem) :
  Forall (λ e, ordinaryName (name e)) employees →
  item ∈ bucket X (chartData (getEmployeeChartContent employees))
  ↔ label item ∈ added X employees
    ∧ value item = JS.Num (occurrences (label item) (added X employees)).
Proof.
  intros Hord. rewrite dto_chartData, counted_bucket by done.
  generalize (added X employees). intros l.
  unfold sortAndConvertToChartData. rewrite list_elem_of_fmap. split.
  - intros (p & -> & Hp). rewrite sortedEntries_perm in Hp.
    unfold tally in Hp. apply list_elem_of_fmap in Hp as (k & -> & Hk).
    rewrite firstSeen_elem in Hk. split; [exact Hk|reflexivity].
  - intros [Hk Hv]. exists (label item, value item). split.
    + by destruct item.
    + rewrite sortedEntries_perm. unfold tally. apply list_elem_of_fmap.
      exists (label item). rewrite Hv. split; [done|]. by apply firstSeen_elem.
Qed.

Lemma chartData_lists_counted_names_witness :
  Forall (λ e, ordinaryName (name e)) janJanEva
  ∧ {| label := "Jan"; value := JS.Num 2 |}
    ∈ male (chartData (getEmployeeChartContent janJanEva)).
Proof.
  split; [compute_done|].
  apply (chartData_lists_counted_names janJanEva BMale); [compute_done|].
  split; [compute_done|vm_compute; reflexivity].
Defined.

(** X14: sorting a dictionary keeps its entries: the sorted object has the
    same properties with the same values, and the chart list has one pair
    per entry. *)
Theorem sorting_keeps_entries (nameDict : list (string * JS.value)) :
  NoDup nameDict.*1 →
  sortNamesObject nameDict ≡ₚ nameDict
  ∧ sortAndConvertToChartData nameDict ≡ₚ toChartItem <$> nameDict
  ∧ ∀ k, JS.own (sortNamesObject nameDict) k = JS.own nameDict k.
Proof.
  intros Hnd.
  assert (sortNamesObject nameDict ≡ₚ nameDict) as Hperm.
  { rewrite sortNamesObject_props by done. apply sortedEntries_perm. }
  split_and!; [done| |].
  - unfold sortAndConvertToChartData. by rewrite sortedEntries_perm.
  - intros k. symmetry. by apply own_perm.
Qed.

Lemma sorting_keeps_entries_witness :
  NoDup evaJanAnna.*1
  ∧ sortNamesObject evaJanAnna ≡ₚ evaJanAnna.
Proof.
  split; [compute_done|].
  apply (sorting_keeps_entries evaJanAnna). compute_done.
Defined.

Lemma sortedEntries_sorted (s : list (string * JS.value)) :
  Forall numeric s → Forall plainKey s.*1 → sortedBy countOf s →
  sortedEntries s = s.
Proof.
  intros Hnum Hplain Hsorted.
  rewrite sortedEntries_numeric, entries_plain by done.
  symmetry. by apply sort_unique.
Qed.

(** X15: sorting is idempotent on a dictionary of numbers whose keys are
    not array indices: sorting the sorted object again, or charting it,
    gives what sorting, or charting, the dictionary itself gives. *)
Theorem sorting_idempotent (nameDict : list (string * JS.value)) :
  NoDup nameDict.*1 → Forall plainKey nameDict.*1 → Forall numeric nameDict →
  sortNamesObject (sortNamesObject nameDict) = sortNamesObject nameDict
  ∧ sortAndConvertToChartData (sortNamesObject nameDict)
    = sortAndConvertToChartData nameDict.
Proof.
  intros Hnd Hplain Hnum.
  assert (sortedEntries (sortNamesObject nameDict) = sortedEntries nameDict) as Hs.
  { rewrite sortNamesObject_props by done. apply sortedEntries_sorted.
    - by rewrite sortedEntries_perm.
    - by rewrite sortedEntries_perm.
    - rewrite sortedEntries_numeric by done. apply sort_sortedBy. }
  split.
  - unfold sortNamesObject at 1. rewrite Hs. reflexivity.
  - unfold sortAndConvertToChartData. by rewrite Hs.
Qed.

Lemma sorting_idempotent_witness :
  NoDup evaJanAnna.*1
  ∧ Forall plainKey evaJanAnna.*1
  ∧ Forall numeric evaJanAnna
  ∧ sortNamesObject (sortNamesObject evaJanAnna) = sortNamesObject evaJanAnna.
Proof.
  assert (Forall numeric evaJanAnna) as Hnum.
  { unfold evaJanAnna. repeat constructor; by eexists. }
  split; [compute_done|]. split; [compute_done|]. split; [exact Hnum|].
  apply (sorting_idempotent evaJanAnna); [compute_done..|exact Hnum].
Defined.

(** * Further properties of the dates *)

Lemma holdsFrom_spec (f : Z → bool) (lo : Z) (n : nat) (z : Z) :
  holdsFrom f lo n = true → lo ≤ z < lo + Z.of_nat n → f z = true.
Proof.
  revert lo. induction n as [|n IH]; intros lo; simpl; [lia|].
  intros [Hlo Hrest]%andb_prop Hz.
  destruct (decide (z = lo)) as [->|Hne]; [done|].
  apply (IH (lo + 1)); [done|lia].
Qed.

Lemma dayOfEra_checked : holdsFrom dayOfEraCheck 0 (Z.to_nat 146097) = true.
Proof. vm_compute. reflexivity. Qed.

Lemma year_digits_checked :
  holdsFrom (λ n, fixedDigits 4 (pretty n)
                  && bool_decide (padStart 4 (pretty n) = pretty n)) 1000 (Z.to_nat 9000) = true.
Proof. vm_compute. reflexivity. Qed.

Lemma two_digits_checked :
  holdsFrom (λ n, fixedDigits 2 (padStart 2 (pretty n))) 0 (Z.to_nat 100) = true.
Proof. vm_compute. reflexivity. Qed.

Lemma three_digits_checked :
  holdsFrom (λ n, fixedDigits 3 (padStart 3 (pretty n))) 0 (Z.to_nat 1000) = true.
Proof. vm_compute. reflexivity. Qed.

(** [civilFromDays] gives a month and a day of the month, and
    [daysFromCivil] is its inverse. *)
Lemma civilFromDays_spec (z : Z) :
  1 ≤ (civilFromDays z).1.2 ≤ 12
  ∧ 1 ≤ (civilFromDays z).2 ≤ 31
  ∧ daysFromCivil (civilFromDays z).1.1 (civilFromDays z).1.2 (civilFromDays z).2 = z.
Proof.
  unfold civilFromDays. cbv zeta.
  set (era := (z + 719468) `div` 146097).
  set (doe := z + 719468 - era * 146097).
  assert (0 ≤ doe < 146097) as Hdoe by (subst doe era; Z.div_mod_to_equations; lia).
  pose proof (holdsFrom_spec _ _ _ doe dayOfEra_checked) as Hcheck.
  rewrite Z2Nat.id in Hcheck by lia. specialize (Hcheck ltac:(lia)).
  unfold dayOfEraCheck in Hcheck. cbv zeta in Hcheck.
  set (yoe := (doe - doe `div` 1460 + doe `div` 36524 - doe `div` 146096) `div` 365) in *.
  set (doy := doe - (365 * yoe + yoe `div` 4 - yoe `div` 100)) in *.
  set (mp := (5 * doy + 2) `div` 153) in *.
  set (d := doy - (153 * mp + 2) `div` 5 + 1) in *.
  clearbody d mp. clear doy.
  cbn [fst snd]. unfold daysFromCivil. cbv zeta.
  assert (∀ y, 0 ≤ yoe ≤ 399 → (yoe + y * 400) `div` 400 = y) as Hera.
  { intros y Hy. symmetry. apply (Z.div_unique_pos _ _ _ yoe); lia. }
  clearbody yoe.
  repeat (apply andb_prop in Hcheck as [Hcheck ?]).
  destruct (decide (mp < 10)); destruct (Z.ltb_spec mp 10); try lia.
  - set (m := mp + 3) in *.
    destruct (decide (m ≤ 2)); destruct (decide (2 < m));
      destruct (Z.ltb_spec 2 m); try lia.
    + replace (yoe + era * 400 + 1 - 1) with (yoe + era * 400) by lia.
      rewrite Hera by lia.
      replace (yoe + era * 400 - era * 400) with yoe by lia. subst doe. lia.
    + rewrite Hera by lia.
      replace (yoe + era * 400 - era * 400) with yoe by lia. subst doe. lia.
  - set (m := mp - 9) in *.
    destruct (decide (m ≤ 2)); destruct (decide (2 < m));
      destruct (Z.ltb_spec 2 m); try lia.
    + replace (yoe + era * 400 + 1 - 1) with (yoe + era * 400) by lia.
      rewrite Hera by lia.
      replace (yoe + era * 400 - era * 400) with yoe by lia. subst doe. lia.
    + rewrite Hera by lia.
      replace (yoe + era * 400 - era * 400) with yoe by lia. subst doe. lia.
Qed.

Lemma MakeDay_of_fields (t : Z) :
  MakeDay (YearFromTime t) (MonthFromTime t) (DateFromTime t) = Day t.
Proof.
  unfold MakeDay, YearFromTime, MonthFromTime, DateFromTime.
  destruct (civilFromDays_spec (Day t)) as (_ & _ & Hday).
  rewrite <- Hday at 4. replace ((civilFromDays (Day t)).1.2 - 1 + 1)
    with (civilFromDays (Day t)).1.2 by lia.
  generalize (civilFromDays (Day t)). intros [[y m] d]. cbn [fst snd].
  unfold daysFromCivil. cbv zeta. lia.
Qed.

Lemma MakeDate_of_parts (t : Z) : MakeDate (Day t) (TimeWithinDay t) = t.
Proof.
  unfold MakeDate, Day, TimeWithinDay, msPerDay.
  Z.div_mod_to_equations. lia.
Qed.

(** Setting the year a Date already has changes nothing, when the zone
    offset is the same seen from local time and from UTC. *)
Lemma setFullYear_same_year (h : Host) (t : Z) :
  Z.abs t ≤ maxTime →
  tzaOfLocal h (LocalTime h t) = tzaOfUTC h t →
  setFullYear h (Some t) (Some (YearFromTime (LocalTime h t))) = Some t.
Proof.
  intros Ht Htz. unfold setFullYear. cbn [mbind option_bind].
  rewrite MakeDay_of_fields, MakeDate_of_parts.
  unfold UTC. rewrite Htz. unfold LocalTime.
  replace (t + tzaOfUTC h t - tzaOfUTC h t) with t by lia.
  unfold TimeClip. by rewrite decide_False by lia.
Qed.

(** X16: with age.min = 0 the latest birthdate allowed is the present
    instant, and with age.max = 0 so is the earliest: subtracting no year
    leaves the Date as it is (the clock being a valid time value, and the
    zone offset the same seen from local time and from UTC). *)
Theorem calculateDateRange_age_zero (h : Host) (dtoIn : DtoIn) :
  Z.abs (clock h) ≤ maxTime →
  tzaOfLocal h (LocalTime h (clock h)) = tzaOfUTC h (clock h) →
  (min (age dtoIn) = 0 → maxDate (calculateDateRange h dtoIn) = Some (clock h))
  ∧ (max (age dtoIn) = 0 → minDate (calculateDateRange h dtoIn) = Some (clock h)).
Proof.
  intros Hclock Htz. unfold calculateDateRange. cbn [minDate maxDate].
  unfold getFullYear. cbn [mbind option_bind fmap option_fmap option_map].
  split; intros ->; rewrite Z.sub_0_r; by apply setFullYear_same_year.
Qed.

Lemma calculateDateRange_age_zero_witness :
  Z.abs (clock cetHost) ≤ maxTime
  ∧ tzaOfLocal cetHost (LocalTime cetHost (clock cetHost)) = tzaOfUTC cetHost (clock cetHost)
  ∧ maxDate (calculateDateRange cetHost (ancients 1)) = Some (clock cetHost).
Proof.
  split; [by vm_compute|]. split; [reflexivity|].
  apply (calculateDateRange_age_zero cetHost (ancients 1)).
  - by vm_compute.
  - reflexivity.
  - reflexivity.
Defined.

Lemma daysFromCivil_next_year (y m d : Z) :
  daysFromCivil y m d + 365 ≤ daysFromCivil (y + 1) m d.
Proof.
  unfold daysFromCivil. cbv zeta.
  destruct (decide (m ≤ 2)).
  - replace (y + 1 - 1) with (y - 1 + 1) by lia. generalize (y - 1). intros y0.
    generalize ((153 * (if decide (2 < m) then m - 3 else m + 9) + 2) `div` 5 + d - 1).
    intros c. Z.div_mod_to_equations. lia.
  - generalize ((153 * (if decide (2 < m) then m - 3 else m + 9) + 2) `div` 5 + d - 1).
    intros c. Z.div_mod_to_equations. lia.
Qed.

Lemma daysFromCivil_later_year (y1 y2 m d : Z) :
  y1 ≤ y2 → daysFromCivil y1 m d + 365 * (y2 - y1) ≤ daysFromCivil y2 m d.
Proof.
  intros Hy. replace y2 with (y1 + Z.of_nat (Z.to_nat (y2 - y1))) by lia.
  generalize (Z.to_nat (y2 - y1)). intros n. induction n as [|n IH].
  - replace (y1 + Z.of_nat 0) with y1 by lia. lia.
  - pose proof (daysFromCivil_next_year (y1 + Z.of_nat n) m d).
    replace (y1 + Z.of_nat (S n)) with (y1 + Z.of_nat n + 1) by lia. lia.
Qed.

Lemma UTC_mono (h : Host) (a1 a2 d w : Z) :
  (∀ t, Z.abs (tzaOfLocal h t) ≤ msPerDay) →
  a1 + 365 ≤ a2 →
  UTC h (MakeDate (a1 + d - 1) w) ≤ UTC h (MakeDate (a2 + d - 1) w).
Proof.
  intros Htz Hdays. unfold UTC, MakeDate.
  pose proof (Htz ((a1 + d - 1) * msPerDay + w)) as H1.
  pose proof (Htz ((a2 + d - 1) * msPerDay + w)) as H2.
  revert H1 H2.
  generalize (tzaOfLocal h ((a1 + d - 1) * msPerDay + w)).
  generalize (tzaOfLocal h ((a2 + d - 1) * msPerDay + w)).
  assert (msPerDay = 86400000) as -> by reflexivity.
  intros z2 z1 H1 H2. lia.
Qed.

(** A later year gives a later Date, when the zone offset never exceeds a
    day. *)
Lemma setFullYear_mono (h : Host) (date : Date) (y1 y2 t1 t2 : Z) :
  (∀ t, Z.abs (tzaOfLocal h t) ≤ msPerDay) →
  y1 ≤ y2 →
  setFullYear h date (Some y1) = Some t1 →
  setFullYear h date (Some y2) = Some t2 →
  t1 ≤ t2.
Proof.
  intros Htz Hy. unfold setFullYear. cbn [mbind option_bind].
  generalize (match date with Some t => LocalTime h t | None => 0 end). intros t.
  intros [-> _]%TimeClip_Some [-> _]%TimeClip_Some.
  destruct (decide (y1 = y2)) as [->|Hne]; [reflexivity|].
  unfold MakeDay. apply UTC_mono; [done|].
  pose proof (daysFromCivil_later_year y1 y2 (MonthFromTime t + 1) 1 Hy). lia.
Qed.

Lemma calculateDateRange_ends (h : Host) (dtoIn : DtoIn) :
  minDate (calculateDateRange h dtoIn)
  = setFullYear h (Some (clock h))
      (Some (YearFromTime (LocalTime h (clock h)) - max (age dtoIn)))
  ∧ maxDate (calculateDateRange h dtoIn)
    = setFullYear h (Some (clock h))
        (Some (YearFromTime (LocalTime h (clock h)) - min (age dtoIn))).
Proof. split; reflexivity. Qed.

Lemma range_of_ends (h : Host) (dtoIn : DtoIn) (t0 t1 : Z) :
  minDate (calculateDateRange h dtoIn) = Some t0 →
  maxDate (calculateDateRange h dtoIn) = Some t1 →
  range (calculateDateRange h dtoIn) = Some (t1 - t0).
Proof.
  unfold calculateDateRange. cbn [minDate maxDate range].
  intros -> ->. reflexivity.
Qed.

Section Window.
Context (h : Host) (dtoIn : DtoIn) (t0 t1 : Z).
Context (Htz : ∀ t, Z.abs (tzaOfLocal h t) ≤ msPerDay).
Context (Hage : min (age dtoIn) ≤ max (age dtoIn)).
Context (Hmin : minDate (calculateDateRange h dtoIn) = Some t0).
Context (Hmax : maxDate (calculateDateRange h dtoIn) = Some t1).

Lemma dateRange_ordered :
  t0 ≤ t1 ∧ Z.abs t0 ≤ maxTime ∧ Z.abs t1 ≤ maxTime
  ∧ range (calculateDateRange h dtoIn) = Some (t1 - t0).
Proof.
  destruct (calculateDateRange_ends h dtoIn) as [Emin Emax].
  pose proof Hmin as Hmin'. pose proof Hmax as Hmax'.
  rewrite Emin in Hmin'. rewrite Emax in Hmax'.
  split_and!.
  - eapply setFullYear_mono; [exact Htz| |exact Hmin'|exact Hmax']. lia.
  - exact (setFullYear_valid _ _ _ _ Hmin').
  - exact (setFullYear_valid _ _ _ _ Hmax').
  - exact (range_of_ends h dtoIn t0 t1 Hmin Hmax).
Qed.

Lemma scaled_within (k : Z) :
  0 ≤ k < two53 → t0 ≤ t1 →
  t0 * two53 ≤ t0 * two53 + k * (t1 - t0) ≤ t1 * two53.
Proof. intros Hk Hle. pose proof two53_pos. nia. Qed.

Lemma randomDate_within (k : Z) :
  0 ≤ k < two53 →
  ∃ t, randomDate (calculateDateRange h dtoIn) k = Some t ∧ t0 ≤ t ≤ t1.
Proof.
  intros Hk. destruct dateRange_ordered as (Hle & H0 & H1 & Hrange).
  unfold randomDate. rewrite Hmin, Hrange. cbn [mbind option_bind].
  pose proof two53_pos as Hpos.
  pose proof (scaled_within k Hk Hle) as Hnum.
  revert Hnum. generalize (t0 * two53 + k * (t1 - t0)). intros numerator Hnum.
  assert (¬ maxTime * two53 < Z.abs numerator) as Hvalid by nia.
  rewrite decide_False by exact Hvalid.
  eexists. split; [reflexivity|]. split.
  - transitivity ((t0 * two53) `quot` two53).
    + rewrite Z.quot_mul by lia. lia.
    + apply Z.quot_le_mono; lia.
  - transitivity ((t1 * two53) `quot` two53).
    + apply Z.quot_le_mono; lia.
    + rewrite Z.quot_mul by lia. lia.
Qed.

Lemma candidate_within (i : nat) :
  ∃ t, t0 ≤ t ≤ t1
       ∧ candidate h (calculateDateRange h dtoIn) i = formatDateToISO h (Some t).
Proof.
  destruct (randomDate_within (random h i `mod` two53)) as (t & Ht & Hin);
    [apply mathRandom_range|].
  exists t. split; [exact Hin|]. unfold candidate. rewrite Ht. reflexivity.
Qed.

End Window.

(** X17: for age.min ≤ age.max the date range is in order: minDate is not
    later than maxDate and range, their difference, is not negative (both
    ends being valid Dates, and the zone offset never exceeding a day). *)
Theorem calculateDateRange_ordered (h : Host) (dtoIn : DtoIn) (t0 t1 : Z) :
  (∀ t, Z.abs (tzaOfLocal h t) ≤ msPerDay) →
  min (age dtoIn) ≤ max (age dtoIn) →
  minDate (calculateDateRange h dtoIn) = Some t0 →
  maxDate (calculateDateRange h dtoIn) = Some t1 →
  t0 ≤ t1 ∧ range (calculateDateRange h dtoIn) = Some (t1 - t0).
Proof.
  intros Htz Hage Hmin Hmax.
  destruct (dateRange_ordered h dtoIn t0 t1 Htz Hage Hmin Hmax) as (Hle & _ & _ & Hr).
  split; [exact Hle|exact Hr].
Qed.

Lemma calculateDateRange_ordered_witness :
  (∀ t, Z.abs (tzaOfLocal cetHost t) ≤ msPerDay)
  ∧ min (age (twenties 3)) ≤ max (age (twenties 3))
  ∧ 846915200123 ≤ 1162448000123
  ∧ range (calculateDateRange cetHost (twenties 3)) = Some (1162448000123 - 846915200123).
Proof.
  assert (∀ t, Z.abs (tzaOfLocal cetHost t) ≤ msPerDay) as Htz.
  { intros t. by vm_compute. }
  split; [exact Htz|]. split; [by vm_compute|].
  apply (calculateDateRange_ordered cetHost (twenties 3) _ _ Htz).
  - by vm_compute.
  - vm_compute. reflexivity.
  - vm_compute. reflexivity.
Defined.

(** X18: for age.min ≤ age.max every birthdate of a returned sequence is the
    formatted string of an instant between minDate and maxDate (both ends
    being valid Dates, and the zone offset never exceeding a day). *)
Theorem generated_birthdate_in_range
    (fuel : nat) (h : Host) (dtoIn : DtoIn) (t0 t1 : Z) (employees : list Employee) :
  (∀ t, Z.abs (tzaOfLocal h t) ≤ msPerDay) →
  min (age dtoIn) ≤ max (age dtoIn) →
  minDate (calculateDateRange h dtoIn) = Some t0 →
  maxDate (calculateDateRange h dtoIn) = Some t1 →
  generateEmployeeData fuel h dtoIn = Some employees →
  Forall (λ e, ∃ t, t0 ≤ t ≤ t1 ∧ birthdate e = formatDateToISO h (Some t))
         employees.
Proof.
  intros Htz Hage Hmin Hmax. apply generateEmployeeData_Forall.
  intros s0 e s1 He.
  pose proof (createEmployee_birthdate h (calculateDateRange h dtoIn) fuel s0) as Hb.
  rewrite He in Hb.
  apply generateUniqueBirthdate_fresh in Hb as (_ & _ & _ & [i ->]).
  apply candidate_within; assumption.
Qed.

Lemma generated_birthdate_in_range_witness :
  ∃ employees,
    generateEmployeeData 5 utcHost (twenties 3) = Some employees
    ∧ Forall (λ e, ∃ t, 846915200123 ≤ t ≤ 1162448000123
                        ∧ birthdate e = formatDateToISO utcHost (Some t))
             employees.
Proof.
  eexists. split; [vm_compute; reflexivity|].
  apply (generated_birthdate_in_range 5 utcHost (twenties 3)).
  - intros t. by vm_compute.
  - by vm_compute.
  - vm_compute. reflexivity.
  - vm_compute. reflexivity.
  - vm_compute. reflexivity.
Defined.

Lemma field_ranges (t : Z) :
  1 ≤ MonthFromTime t + 1 ≤ 12
  ∧ 1 ≤ DateFromTime t ≤ 31
  ∧ 0 ≤ HourFromTime t < 24
  ∧ 0 ≤ MinFromTime t < 60
  ∧ 0 ≤ SecFromTime t < 60
  ∧ 0 ≤ msFromTime t < 1000.
Proof.
  unfold MonthFromTime, DateFromTime, HourFromTime, MinFromTime, SecFromTime,
    msFromTime.
  destruct (civilFromDays_spec (Day t)) as (Hm & Hd & _).
  split_and!; try lia; apply Z.mod_pos_bound; lia.
Qed.

Lemma two_digits (n : Z) : 0 ≤ n < 100 → fixedDigits 2 (padStart 2 (pretty n)) = true.
Proof.
  intros Hn. apply (holdsFrom_spec _ _ _ n two_digits_checked).
  rewrite Z2Nat.id; lia.
Qed.

Lemma three_digits (n : Z) : 0 ≤ n < 1000 → fixedDigits 3 (padStart 3 (pretty n)) = true.
Proof.
  intros Hn. apply (holdsFrom_spec _ _ _ n three_digits_checked).
  rewrite Z2Nat.id; lia.
Qed.

Lemma four_digits (n : Z) :
  1000 ≤ n ≤ 9999 →
  fixedDigits 4 (pretty n) = true ∧ padStart 4 (pretty n) = pretty n.
Proof.
  intros Hn. pose proof (holdsFrom_spec _ _ _ n year_digits_checked) as H.
  rewrite Z2Nat.id in H by lia. specialize (H ltac:(lia)).
  apply andb_prop in H as [? ?%bool_decide_eq_true]. done.
Qed.

(** X19: for a valid Date whose local year is in 1000..9999 the string has
    the shape YYYY-MM-DDTHH:mm:ss.sssZ: four, two, two, two, two, two and
    three decimal digits between the separators. *)
Theorem formatDateToISO_shape (h : Host) (t : Z) :
  1000 ≤ YearFromTime (LocalTime h t) ≤ 9999 →
  isoShape (formatDateToISO h (Some t)).
Proof.
  intros Hyear. destruct (field_ranges (LocalTime h t)) as (? & ? & ? & ? & ? & ?).
  unfold formatDateToISO, getFullYear, getMonth, getDate, getHours, getMinutes,
    getSeconds, getMilliseconds, numberToString.
  cbn [mbind option_bind fmap option_fmap option_map].
  eexists _, _, _, _, _, _, _. split; [reflexivity|].
  split_and!.
  - by apply four_digits.
  - apply two_digits. lia.
  - apply two_digits. lia.
  - apply two_digits. lia.
  - apply two_digits. lia.
  - apply two_digits. lia.
  - by apply three_digits.
Qed.

Lemma formatDateToISO_shape_witness :
  1000 ≤ YearFromTime (LocalTime cetHost 951782400123) ≤ 9999
  ∧ isoShape (formatDateToISO cetHost (Some 951782400123)).
Proof.
  split; [by vm_compute|].
  apply (formatDateToISO_shape cetHost 951782400123). by vm_compute.
Defined.

(** X20: for a valid Date whose local year is in 1000..9999 the string is
    the ISO-8601 rendering of the local time value; where the zone offset is
    zero it is the ISO-8601 string of the instant in UTC. *)
Theorem formatDateToISO_is_ISO_of_local_time (h : Host) (t : Z) :
  1000 ≤ YearFromTime (LocalTime h t) ≤ 9999 →
  formatDateToISO h (Some t) = toISOString (LocalTime h t)
  ∧ (tzaOfUTC h t = 0 → formatDateToISO h (Some t) = toISOString t).
Proof.
  intros Hyear.
  assert (formatDateToISO h (Some t) = toISOString (LocalTime h t)) as Heq.
  { unfold formatDateToISO, toISOString, getFullYear, getMonth, getDate, getHours,
      getMinutes, getSeconds, getMilliseconds, numberToString.
    cbn [mbind option_bind fmap option_fmap option_map].
    destruct (four_digits _ Hyear) as [_ ->]. reflexivity. }
  split; [done|]. intros Hutc. rewrite Heq. unfold LocalTime.
  by rewrite Hutc, Z.add_0_r.
Qed.

Lemma formatDateToISO_is_ISO_of_local_time_witness :
  1000 ≤ YearFromTime (LocalTime utcHost 951782400123) ≤ 9999
  ∧ formatDateToISO utcHost (Some 951782400123) = toISOString 951782400123.
Proof.
  split; [by vm_compute|].
  apply (formatDateToISO_is_ISO_of_local_time utcHost 951782400123).
  - by vm_compute.
  - reflexivity.
Defined.

(** X21: for a count that is zero or negative the loop body never runs:
    generateEmployeeData returns the empty sequence, and main the result
    with five empty categories in both views. *)
Theorem nonpositive_count_gives_nothing (fuel : nat) (h : Host) (dtoIn : DtoIn) :
  count dtoIn ≤ 0 →
  generateEmployeeData fuel h dtoIn = Some []
  ∧ main fuel h dtoIn = Some emptyDto.
Proof.
  intros Hcount.
  assert (generateEmployeeData fuel h dtoIn = Some []) as Hgen.
  { unfold generateEmployeeData.
    replace (Z.to_nat (count dtoIn)) with 0%nat by lia. reflexivity. }
  split; [exact Hgen|]. unfold main. rewrite Hgen. reflexivity.
Qed.

Lemma nonpositive_count_gives_nothing_witness :
  count (twenties (-2)) ≤ 0
  ∧ generateEmployeeData 0 utcHost (twenties (-2)) = Some [].
Proof.
  split; [simpl; lia|].
  apply (nonpositive_count_gives_nothing 0 utcHost (twenties (-2))).
  simpl. lia.
Defined.

Lemma occurrences_split (k : string) (employees : list Employee) :
  occurrences k (added BAll employees)
  = occurrences k (added BMale employees) + occurrences k (added BFemale employees).
Proof.
  unfold occurrences, added. rewrite counted_all.
  induction employees as [|e employees IH]; [done|].
  rewrite !filter_cons. cbn [counted].
  destruct (decide (gender e = "male")) as [Hg|Hg].
  - rewrite decide_False by (intros Hne; by apply Hne).
    csimpl. rewrite !filter_cons. case_decide; simpl in *; lia.
  - rewrite decide_True by done.
    csimpl. rewrite !filter_cons. case_decide; simpl in *; lia.
Qed.

Lemma countFor_names X (employees : list Employee) (k : string) :
  Forall (λ e, ordinaryName (name e)) employees →
  countFor (bucket X (names (getEmployeeChartContent employees))) k
  = occurrences k (added X employees).
Proof.
  intros Hord. unfold countFor. rewrite names_own by done.
  case_decide as Hin; [done|]. by rewrite occurrences_absent.
Qed.

(** X22: for every input sequence none of whose names is a property name of
    %Object.prototype%, and for every name, the count in [all] is the count
    in [male] plus the count in [female] (a missing name counting 0), and
    equals the number of employees of that name. *)
Theorem count_splits_by_gender (employees : list Employee) (k : string) :
  Forall (λ e, ordinaryName (name e)) employees →
  let dto := getEmployeeChartContent employees in
  countFor (all (names dto)) k
  = countFor (male (names dto)) k + countFor (female (names dto)) k
  ∧ countFor (all (names dto)) k = occurrences k (name <$> employees).
Proof.
  intros Hord dto. subst dto.
  pose proof (countFor_names BAll employees k Hord) as Hall.
  pose proof (countFor_names BMale employees k Hord) as Hmale.
  pose proof (countFor_names BFemale employees k Hord) as Hfemale.
  cbn [bucket] in *. rewrite Hall, Hmale, Hfemale. split.
  - apply occurrences_split.
  - unfold added. by rewrite counted_all.
Qed.

Lemma count_splits_by_gender_witness :
  Forall (λ e, ordinaryName (name e)) tied
  ∧ countFor (all (names (getEmployeeChartContent tied))) "Jan"
    = countFor (male (names (getEmployeeChartContent tied))) "Jan"
      + countFor (female (names (getEmployeeChartContent tied))) "Jan".
Proof.
  split; [compute_done|].
  apply (count_splits_by_gender tied "Jan"). compute_done.
Defined.
